(** * Film catalog browser: filtering and pagination

    A shallow embedding of [src/main.py] and [src/app.py] (two variants of
    the same FastAPI application) and the properties of their
    filter-and-paginate pipeline.

    - Python [int] is [Z]; Python [str] is a list of Unicode code points.
    - A film is the [dict] that [json.load] produces: a finite map from keys
      to JSON values.  Subscripting, [.lower()] and the ordering comparisons
      can raise; this is kept in the [result] type.
    - The module-level variable [filtered_films] is threaded through the
      request handlers as explicit state. *)

From Stdlib Require Import ZArith String Ascii.
From stdpp Require Import gmap strings list fin_maps sorting.

Local Open Scope Z_scope.

(** ** Python values *)

(** A [str] is a sequence of code points. *)
Abbreviation pystr := (list N).

(** An ASCII literal of the source as a [str]. *)
Definition py (s : string) : pystr :=
  (fun a => N_of_ascii a) <$> list_ascii_of_string s.

(** The values found in the film fixture: [null], integers and strings
    (the catalog has no other kind of field). *)
Inductive value :=
| VNone
| VInt (z : Z)
| VStr (s : pystr).

Global Instance value_eq_dec : EqDecision value.
Proof. solve_decision. Defined.

Abbreviation dict := (gmap string value).

(** Exceptions the handlers can meet. *)
Inductive exn :=
| KeyError (key : string)
| TypeError
| AttributeError.

Inductive result (A : Type) :=
| Ok (a : A)
| Raise (e : exn).
Arguments Ok {A} a.
Arguments Raise {A} e.

Global Instance result_ret : MRet result := fun _ a => Ok a.
Global Instance result_bind : MBind result := fun _ _ f m =>
  match m with
  | Ok a => f a
  | Raise e => Raise e
  end.

(** [d[key]] *)
Definition getitem (d : dict) (key : string) : result value :=
  match d !! key with
  | Some v => Ok v
  | None => Raise (KeyError key)
  end.

(** [v == s] for a [str] [s]: values of another type compare unequal. *)
Definition value_eq_str (v : value) (s : pystr) : bool :=
  match v with
  | VStr t => bool_decide (t = s)
  | _ => false
  end.

(** [z <= v] and [v <= z] for an [int] [z]. *)
Definition int_le_value (z : Z) (v : value) : result bool :=
  match v with
  | VInt y => Ok (z <=? y)
  | _ => Raise TypeError
  end.

Definition value_le_int (v : value) (z : Z) : result bool :=
  match v with
  | VInt y => Ok (y <=? z)
  | _ => Raise TypeError
  end.

(** ** Strings: case mapping and the [in] operator *)

(** [str.lower] and [str.upper] are the Unicode case mappings.  The handlers
    only call them; everything proved about the handlers holds for any pair
    of mappings, so they are an interface here. *)
Class CaseMapping := {
  str_lower : pystr → pystr;
  str_upper : pystr → pystr
}.

(** The mappings on Basic Latin and Latin-1 Supplement (U+0000 to U+00FF), as
    the Unicode character database gives them.  No code point of this range
    is context sensitive, so both work code point by code point.  Code
    points above U+00FF are left as they are. *)
Definition lower_cp (c : N) : N :=
  if ((65 <=? c) && (c <=? 90))%N then (c + 32)%N
  else if ((192 <=? c) && (c <=? 222) && negb (c =? 215))%N then (c + 32)%N
  else c.

Definition upper_cp (c : N) : pystr :=
  if ((97 <=? c) && (c <=? 122))%N then [(c - 32)%N]
  else if (c =? 181)%N then [924%N]
  else if (c =? 223)%N then [83%N; 83%N]
  else if ((224 <=? c) && (c <=? 254) && negb (c =? 247))%N then [(c - 32)%N]
  else if (c =? 255)%N then [376%N]
  else [c].

Definition latin1_lower (s : pystr) : pystr := lower_cp <$> s.
Definition latin1_upper (s : pystr) : pystr := s ≫= upper_cp.

(** [p] is a prefix of [s]. *)
Fixpoint startswith (s p : pystr) : bool :=
  match p, s with
  | [], _ => true
  | _ :: _, [] => false
  | a :: p', b :: s' => bool_decide (a = b) && startswith s' p'
  end.

(** [p in s]: [p] occurs in [s] as a contiguous run. *)
Fixpoint str_contains (s p : pystr) : bool :=
  startswith s p ||
  match s with
  | [] => false
  | _ :: s' => str_contains s' p
  end.

(** [v.lower()] *)
Definition method_lower `{CaseMapping} (v : value) : result pystr :=
  match v with
  | VStr s => Ok (str_lower s)
  | _ => Raise AttributeError
  end.

(** ** Slicing and pagination *)

(** [l[start:stop]]: a negative index counts from the end, and both indices
    are then clamped to [0, len(l)]. *)
Definition slice_index (len i : Z) : Z :=
  if i <? 0 then Z.max (i + len) 0 else Z.min i len.

Definition slice {A} (l : list A) (start stop : Z) : list A :=
  let len := Z.of_nat (length l) in
  let lo := slice_index len start in
  let hi := slice_index len stop in
  take (Z.to_nat (hi - lo)) (drop (Z.to_nat lo) l).

Definition PER_PAGE : Z := 10.

(** The dictionary [paginate] returns, with its five keys. *)
Record PageResult (A : Type) := {
  items : list A;
  has_prev : bool;
  has_next : bool;
  page : Z;
  offset : Z
}.
Arguments items {A} _.
Arguments has_prev {A} _.
Arguments has_next {A} _.
Arguments page {A} _.
Arguments offset {A} _.

(** [paginate] is the same function in both variants ([app.py] also prints
    its three numbers). *)
Definition paginate {A} (items : list A) (page : Z) (per_page : Z)
  : PageResult A :=
  let total := Z.of_nat (length items) in
  let start := (page - 1) * per_page in
  let end_ := start + per_page in
  let sliced := slice items start end_ in
  {| items := sliced;
     has_prev := page >? 1;
     has_next := end_ <? total;
     page := page;
     offset := start |}.

(** ** The catalog *)

(** The list comprehension [[f for f in films if cond(f)]]: the condition is
    evaluated film by film, in order, and the first exception ends it. *)
Fixpoint comprehension (cond : dict → result bool) (films : list dict)
  : result (list dict) :=
  match films with
  | [] => Ok []
  | f :: rest =>
      b ← cond f;
      kept ← comprehension cond rest;
      Ok (if b : bool then f :: kept else kept)
  end.

(** [f["genre"] == genre] *)
Definition genre_cond (genre : pystr) (f : dict) : result bool :=
  v ← getitem f "genre";
  Ok (value_eq_str v genre).

(** [kw_lower in f["title"].lower()] *)
Definition keyword_cond `{CaseMapping} (kw_lower : pystr) (f : dict)
  : result bool :=
  v ← getitem f "title";
  t ← method_lower v;
  Ok (str_contains t kw_lower).

(** [year_from <= f["year"] <= year_to]: the middle operand is evaluated
    once, and the second comparison only when the first one holds. *)
Definition year_cond (year_from year_to : Z) (f : dict) : result bool :=
  v ← getitem f "year";
  b ← int_le_value year_from v;
  if b : bool then value_le_int v year_to else Ok false.

(** ** Responses *)

(** The template context of a paginated table ([year.html] gets no title). *)
Record page_context := {
  ctx_title : option pystr;
  ctx_items : list dict;
  ctx_columns : list string;
  ctx_page : Z;
  ctx_has_prev : bool;
  ctx_has_next : bool;
  ctx_offset : Z
}.

Inductive context :=
| Paginated (c : page_context)
| TitleItems (title : pystr) (items : list dict).

Inductive response :=
| TemplateResponse (name : string) (ctx : context)
| RedirectResponse (url : string) (status_code : Z).

Definition columns : list string :=
  ["title"; "description"; "genre"; "year"]%string.

(** The context every paginated handler builds from [pagination]. *)
Definition table_context (title : option pystr) (pagination : PageResult dict)
  : context :=
  Paginated
    {| ctx_title := title;
       ctx_items := items pagination;
       ctx_columns := columns;
       ctx_page := page pagination;
       ctx_has_prev := has_prev pagination;
       ctx_has_next := has_next pagination;
       ctx_offset := offset pagination |}.

(** The requests of the search and browse routes.  [page] defaults to 1. *)
Inductive request :=
| GET_genres_genre (genre : pystr) (page : Z)
| POST_search_keyword (keyword : pystr) (page : Z)
| GET_search_keyword (page : Z)
| POST_search_year (year_from year_to : Z)
| GET_search_year (page : Z).

(** ** [src/main.py] *)

(** Every handler takes [films], what [load_json(FILMS_FILE)] returns, and
    the module state; it gives the response and the state it leaves, or the
    exception it ends with (the state is then as it was: each handler
    assigns [filtered_films] only after its comprehension has finished). *)
Module Main.

Record state := { filtered_films : list dict }.

Definition init : state := {| filtered_films := [] |}.

Definition films_by_genre (films : list dict) (genre : pystr) (page : Z)
    (st : state) : result (response * state) :=
  filtered ← comprehension (genre_cond genre) films;
  let st := {| filtered_films := filtered |} in
  let pagination := paginate (filtered_films st) page PER_PAGE in
  Ok (TemplateResponse "keyword.html"
        (table_context (Some (py "Genre: " ++ genre)) pagination), st).

Definition keyword_search `{CaseMapping} (films : list dict)
    (keyword : pystr) (st : state) : result (response * state) :=
  let kw_lower := str_lower keyword in
  filtered ← comprehension (keyword_cond kw_lower) films;
  let st := {| filtered_films := filtered |} in
  Ok (RedirectResponse "/search/keyword" 303, st).

Definition keyword_form (page : Z) (st : state)
  : result (response * state) :=
  let pagination := paginate (filtered_films st) page PER_PAGE in
  Ok (TemplateResponse "keyword.html"
        (table_context (Some (py "Search by keyword")) pagination), st).

Definition year_form_submit (films : list dict) (year_from year_to : Z)
    (st : state) : result (response * state) :=
  filtered ← comprehension (year_cond year_from year_to) films;
  let st := {| filtered_films := filtered |} in
  Ok (RedirectResponse "/search/year" 303, st).

Definition year_search (page : Z) (st : state)
  : result (response * state) :=
  let pagination := paginate (filtered_films st) page PER_PAGE in
  Ok (TemplateResponse "year.html" (table_context None pagination), st).

(** Routing.  [POST /search/keyword] has no [page] parameter here. *)
Definition handle `{CaseMapping} (films : list dict) (req : request)
    (st : state) : result (response * state) :=
  match req with
  | GET_genres_genre genre page => films_by_genre films genre page st
  | POST_search_keyword keyword _ => keyword_search films keyword st
  | GET_search_keyword page => keyword_form page st
  | POST_search_year year_from year_to =>
      year_form_submit films year_from year_to st
  | GET_search_year page => year_search page st
  end.

End Main.

(** ** [src/app.py] *)

Module App.

Record state := { filtered_films : list dict }.

Definition init : state := {| filtered_films := [] |}.

Definition films_by_genre (films : list dict) (genre : pystr) (page : Z)
    (st : state) : result (response * state) :=
  filtered ← comprehension (genre_cond genre) films;
  let pagination := paginate filtered page PER_PAGE in
  Ok (TemplateResponse "keyword.html"
        (table_context (Some (py "Genre: " ++ genre)) pagination), st).

Definition keyword_form (st : state) : result (response * state) :=
  Ok (TemplateResponse "keyword.html"
        (TitleItems (py "Search by keyword") []), st).

Definition keyword_search `{CaseMapping} (films : list dict)
    (keyword : pystr) (page : Z) (st : state)
  : result (response * state) :=
  let keyword_lower := str_lower keyword in
  filtered ← comprehension (keyword_cond keyword_lower) films;
  let pagination := paginate filtered page PER_PAGE in
  Ok (TemplateResponse "keyword.html"
        (table_context (Some (py "Search by keyword")) pagination), st).

Definition year_form_submit (films : list dict) (year_from year_to : Z)
    (st : state) : result (response * state) :=
  filtered ← comprehension (year_cond year_from year_to) films;
  let st := {| filtered_films := filtered |} in
  Ok (RedirectResponse "/search/year" 303, st).

Definition year_search (page : Z) (st : state)
  : result (response * state) :=
  let pagination := paginate (filtered_films st) page PER_PAGE in
  Ok (TemplateResponse "year.html" (table_context None pagination), st).

(** Routing.  [GET /search/keyword] takes no [page] and shows an empty
    form. *)
Definition handle `{CaseMapping} (films : list dict) (req : request)
    (st : state) : result (response * state) :=
  match req with
  | GET_genres_genre genre page => films_by_genre films genre page st
  | POST_search_keyword keyword page => keyword_search films keyword page st
  | GET_search_keyword _ => keyword_form st
  | POST_search_year year_from year_to =>
      year_form_submit films year_from year_to st
  | GET_search_year page => year_search page st
  end.

End App.

(** A run of requests against one process: the responses in order and the
    state left.  A request that raises is answered with the exception (the
    framework's server error) and leaves the state as it was. *)
Fixpoint serve {St} (handle : request → St → result (response * St))
    (reqs : list request) (st : St) : list (result response) * St :=
  match reqs with
  | [] => ([], st)
  | req :: reqs' =>
      match handle req st with
      | Ok (resp, st') =>
          let '(out, final) := serve handle reqs' st' in (Ok resp :: out, final)
      | Raise e =>
          let '(out, final) := serve handle reqs' st in (Raise e :: out, final)
      end
  end.

(** ** The data model of the specification *)

(** A film as a typed record, and the [dict] that stands for it. *)
Record Film := {
  title : pystr;
  description : pystr;
  genre : pystr;
  year : Z
}.

Definition film_dict (f : Film) : dict :=
  {[ "title"%string := VStr (title f);
     "description"%string := VStr (description f);
     "genre"%string := VStr (genre f);
     "year"%string := VInt (year f) ]}.

Inductive FilterCriterion :=
| Genre (value : pystr)
| KeywordInTitle (value : pystr)
| YearRange (from to : Z).

(** The criterion as a predicate on films, in the specification's words. *)
Definition matches `{CaseMapping} (c : FilterCriterion) (f : Film) : bool :=
  match c with
  | Genre g => bool_decide (genre f = g)
  | KeywordInTitle k => str_contains (str_lower (title f)) (str_lower k)
  | YearRange from to => (from <=? year f) && (year f <=? to)
  end.

(** [filter(catalog, criterion)] of the specification: the matching films in
    catalog order. *)
Definition filter_films `{CaseMapping} (catalog : list Film)
    (c : FilterCriterion) : list Film :=
  List.filter (matches c) catalog.

(** The comprehension each criterion stands for in the source. *)
Definition criterion_cond `{CaseMapping} (c : FilterCriterion)
  : dict → result bool :=
  match c with
  | Genre g => genre_cond g
  | KeywordInTitle k => keyword_cond (str_lower k)
  | YearRange from to => year_cond from to
  end.

(** Pages [n], [n+1], ... of [l] one after the other, up to the first empty
    page; [None] when [fuel] pages were not enough to reach it. *)
Fixpoint concat_pages {A} (fuel : nat) (l : list A) (n p : Z)
  : option (list A) :=
  match fuel with
  | O => None
  | S fuel' =>
      match items (paginate l n p) with
      | [] => Some []
      | first :: more =>
          rest ← concat_pages fuel' l (n + 1) p;
          Some ((first :: more) ++ rest)
      end
  end.

(** A [PageResult] as the data model describes it: at most a page of items,
    a positive page number, and the offset of that page, which is not
    negative. *)
Definition valid_page_result {A} (per_page : Z) (r : PageResult A) : Prop :=
  Z.of_nat (length (items r)) ≤ per_page ∧
  1 ≤ page r ∧
  0 ≤ offset r ∧
  offset r = (page r - 1) * per_page.

(** The Latin-1 table as an instance of the interface. *)
Definition latin1_case : CaseMapping :=
  {| str_lower := latin1_lower; str_upper := latin1_upper |}.

(** ** The genres page *)

(** [s < t] on [str]: code point by code point, a proper prefix first. *)
Fixpoint str_lt (s t : pystr) : bool :=
  match s, t with
  | _, [] => false
  | [], _ :: _ => true
  | a :: s', b :: t' => (a <? b)%N || ((a =? b)%N && str_lt s' t')
  end.

(** [a < b]: integers are ordered among themselves and so are strings; any
    other pair of operands is a [TypeError]. *)
Definition value_lt (a b : value) : result bool :=
  match a, b with
  | VInt x, VInt y => Ok (x <? y)
  | VStr s, VStr t => Ok (str_lt s t)
  | _, _ => Raise TypeError
  end.

(** [a < b] holds. *)
Definition vlt (a b : value) : Prop := value_lt a b = Ok true.

(** Values of one kind that [<] orders: all integers or all strings. *)
Definition homogeneous (l : list value) : Prop :=
  Forall (λ v, ∃ z, v = VInt z) l ∨ Forall (λ v, ∃ s, v = VStr s) l.

(** [sorted(xs)], by insertion with [<] alone.  [sorted] is only ever given
    a set, whose iteration order is not fixed; the result does not depend on
    it, as is proved below. *)
Fixpoint insort (x : value) (l : list value) : result (list value) :=
  match l with
  | [] => Ok [x]
  | y :: l' =>
      b ← value_lt x y;
      if b : bool then Ok (x :: y :: l')
      else r ← insort x l'; Ok (y :: r)
  end.

Fixpoint sorted (l : list value) : result (list value) :=
  match l with
  | [] => Ok []
  | x :: l' => r ← sorted l'; insort x r
  end.

(** The set comprehension [{film["genre"] for film in films}]: the genres in
    the order of the films, the first missing key ending it, each value
    once. *)
Definition genre_set (films : list dict) : result (list value) :=
  vs ← mapM (λ film, getitem film "genre") films;
  Ok (remove_dups vs).

(** The context of [genres.html]. *)
Record genres_context := {
  gctx_title : pystr;
  gctx_genres : list value
}.

(** [genres] is the same handler in both variants; it neither reads nor
    assigns [filtered_films]. *)
Definition genres (films : list dict) : result (string * genres_context) :=
  s ← genre_set films;
  genres_list ← sorted s;
  Ok ("genres.html"%string,
      {| gctx_title := py "Genres"; gctx_genres := genres_list |}).

(** ** Following the links of a paginated table *)

(** The items seen from page [n] on by a reader who goes to the next page
    as long as [has_next] offers one; [None] when [fuel] pages were not
    enough. *)
Fixpoint follow_next {A} (fuel : nat) (l : list A) (n p : Z)
  : option (list A) :=
  match fuel with
  | O => None
  | S fuel' =>
      let r := paginate l n p in
      if has_next r then
        rest ← follow_next fuel' l (n + 1) p;
        Some (items r ++ rest)
      else Some (items r)
  end.

(** ** Fixtures for the concrete runs *)

Definition film_of (t g : string) (y : Z) : Film :=
  {| title := py t; description := []; genre := py g; year := y |}.

(** [count] films of one genre, of the years from [first] on. *)
Definition films_of_years (g : string) (first : Z) (count : nat) : list Film :=
  (λ y, film_of "Film" g y) <$> seqZ first (Z.of_nat count).

(** U+00DF, the sharp s: [upper] gives "SS", whose [lower] is "ss". *)
Definition sharp_s : pystr := [223%N].

(** A film titled "Straße". *)
Definition strasse : Film :=
  {| title := py "Stra" ++ sharp_s ++ py "e"; description := [];
     genre := py "Drama"; year := 2000 |}.

(** * Properties *)

(** ** Slices *)

Section Slice.
Context {A : Type}.
Implicit Types l : list A.

(** With both indices at or above zero a slice is a [drop] and a [take]. *)
Lemma slice_nonneg l start stop :
  0 ≤ start → 0 ≤ stop →
  slice l start stop = take (Z.to_nat (stop - start)) (drop (Z.to_nat start) l).
Proof.
  intros Hs He. unfold slice, slice_index.
  rewrite !(proj2 (Z.ltb_ge _ 0)) by lia.
  destruct (Z.le_gt_cases (Z.of_nat (length l)) start) as [Hge|Hlt].
  - rewrite !drop_ge by lia. by rewrite !take_nil.
  - rewrite (Z.min_l start) by lia.
    destruct (Z.le_gt_cases stop (Z.of_nat (length l))) as [Hle|Hgt].
    + by rewrite (Z.min_l stop) by lia.
    + rewrite (Z.min_r stop) by lia.
      rewrite !take_ge; [done | rewrite length_drop; lia ..].
Qed.

(** With both indices below zero and within the list, the slice counts from
    the end. *)
Lemma slice_neg l start stop :
  - Z.of_nat (length l) ≤ start → start ≤ stop → stop < 0 →
  slice l start stop =
    take (Z.to_nat (stop - start))
         (drop (Z.to_nat (Z.of_nat (length l) + start)) l).
Proof.
  intros Hs Hse He. unfold slice, slice_index.
  rewrite !(proj2 (Z.ltb_lt _ 0)) by lia.
  rewrite !Z.max_l by lia.
  do 2 f_equal; lia.
Qed.

Lemma slice_length_le l start stop :
  0 ≤ stop - start →
  Z.of_nat (length (slice l start stop)) ≤ stop - start.
Proof.
  intros H. unfold slice, slice_index. rewrite length_take.
  repeat case_match; lia.
Qed.

Lemma slice_empty l start stop :
  Z.of_nat (length l) ≤ start → slice l start stop = [].
Proof.
  intros H. unfold slice, slice_index.
  rewrite (proj2 (Z.ltb_ge start 0)) by lia.
  rewrite drop_ge by lia. by rewrite take_nil.
Qed.

(** Nothing lies before a stop index that, counted from the front, is at or
    before the start of the list. *)
Lemma slice_stop_nonpos l start stop :
  stop = 0 ∨ stop ≤ - Z.of_nat (length l) → slice l start stop = [].
Proof.
  intros H. unfold slice.
  assert (Hlo : 0 ≤ slice_index (Z.of_nat (length l)) start)
    by (unfold slice_index; case_match; lia).
  assert (Hhi : slice_index (Z.of_nat (length l)) stop = 0).
  { unfold slice_index. destruct (Z.ltb_spec stop 0); lia. }
  rewrite Hhi. by replace (Z.to_nat _) with 0%nat by lia.
Qed.

End Slice.

(** ** Pagination *)

Section Paginate.
Context {A : Type}.
Implicit Types l : list A.

Lemma paginate_items l n p :
  1 ≤ n → 0 ≤ p →
  items (paginate l n p) =
    take (Z.to_nat p) (drop (Z.to_nat ((n - 1) * p)) l).
Proof.
  intros Hn Hp. unfold paginate; simpl.
  rewrite slice_nonneg by nia. do 2 f_equal. lia.
Qed.

Lemma paginate_items_length l n p :
  0 ≤ p → Z.of_nat (length (items (paginate l n p))) ≤ p.
Proof.
  intros Hp. unfold paginate; simpl.
  etrans; [apply slice_length_le|]; lia.
Qed.

(** A page is empty exactly when its offset is at or past the end. *)
Lemma paginate_items_nil l n p :
  1 ≤ n → 0 < p →
  items (paginate l n p) = [] ↔ Z.of_nat (length l) ≤ (n - 1) * p.
Proof.
  intros Hn Hp. rewrite paginate_items by lia.
  rewrite <-length_zero_iff_nil, length_take, length_drop. nia.
Qed.

(** C1: for a positive page and a positive page size, [paginate] returns
    offset [(page-1)*pageSize]; as items the elements of [S] at positions
    [offset, offset+pageSize) that exist (none when the offset is at or past
    the end); [hasPrevious] as [page > 1]; and [hasNext] as
    [offset+pageSize < length(S)]. *)
Theorem paginate_spec l n p :
  1 ≤ n → 1 ≤ p →
  let r := paginate l n p in
  page r = n ∧
  offset r = (n - 1) * p ∧
  items r = take (Z.to_nat p) (drop (Z.to_nat (offset r)) l) ∧
  (∀ i : nat,
     items r !! i =
       if decide (Z.of_nat i < p) then l !! (Z.to_nat (offset r) + i)%nat
       else None) ∧
  (Z.of_nat (length l) ≤ offset r → items r = []) ∧
  has_prev r = bool_decide (1 < n) ∧
  has_next r = bool_decide (offset r + p < Z.of_nat (length l)).
Proof.
  intros Hn Hp r.
  assert (Hitems : items r = take (Z.to_nat p) (drop (Z.to_nat (offset r)) l))
    by (apply paginate_items; lia).
  split_and!; try done.
  - intros i. rewrite Hitems. case_decide.
    + rewrite lookup_take_lt by lia. by rewrite lookup_drop.
    + by rewrite lookup_take_ge by lia.
  - intros Hend. apply paginate_items_nil; [lia ..|done].
  - subst r; simpl. destruct (Z.gtb_spec n 1).
    + by rewrite bool_decide_eq_true_2 by lia.
    + by rewrite bool_decide_eq_false_2 by lia.
  - subst r; simpl. destruct (Z.ltb_spec ((n - 1) * p + p) (Z.of_nat (length l))).
    + by rewrite bool_decide_eq_true_2 by lia.
    + by rewrite bool_decide_eq_false_2 by lia.
Qed.

End Paginate.

Lemma paginate_spec_witness :
  (1 ≤ 2 ∧ 1 ≤ 2) ∧
  let r := paginate [1; 2; 3; 4; 5]%nat 2 2 in
  page r = 2 ∧ offset r = 2 ∧ items r = [3; 4]%nat ∧
  has_prev r = true ∧ has_next r = true.
Proof.
  split; [lia|].
  destruct (paginate_spec [1; 2; 3; 4; 5]%nat 2 2 ltac:(lia) ltac:(lia))
    as (Hpage & Hoff & Hitems & _ & _ & Hprev & Hnext).
  rewrite Hoff in Hitems, Hnext.
  split_and!; [exact Hpage | exact Hoff | exact Hitems | exact Hprev | exact Hnext].
Defined.

Section Pages.
Context {A : Type}.
Implicit Types l : list A.

(** From page [n] on, the pages put together are what is left of the list at
    the offset of page [n]. *)
Lemma concat_pages_from l p :
  0 < p →
  ∀ (fuel : nat) n,
    1 ≤ n →
    (Z.to_nat (Z.of_nat (length l) - (n - 1) * p) < fuel)%nat →
    concat_pages fuel l n p = Some (drop (Z.to_nat ((n - 1) * p)) l).
Proof.
  intros Hp fuel. induction fuel as [|fuel IH]; intros n Hn Hfuel; [lia|].
  cbn [concat_pages].
  destruct (items (paginate l n p)) as [|first more] eqn:Hpage.
  - apply paginate_items_nil in Hpage; [|lia ..].
    by rewrite drop_ge by lia.
  - assert (Hlt : (n - 1) * p < Z.of_nat (length l)).
    { apply Z.nle_gt. intros Hge.
      apply paginate_items_nil in Hge; [|lia ..]. congruence. }
    rewrite IH by lia. simpl. f_equal.
    change (first :: more ++ ?r) with ((first :: more) ++ r).
    rewrite <-Hpage, paginate_items by lia.
    replace ((n + 1 - 1) * p) with ((n - 1) * p + p) by ring.
    rewrite Z2Nat.inj_add by nia.
    by rewrite <-drop_drop, take_drop.
Qed.

(** C2: for a page size above zero, pages 1, 2, ... put one after the other
    up to the first empty page are the sequence itself: the same elements in
    the same order, none missing and none twice.  The empty page is reached
    within [length S + 1] pages. *)
Theorem concat_pages_all l p (fuel : nat) :
  0 < p → (length l < fuel)%nat → concat_pages fuel l 1 p = Some l.
Proof.
  intros Hp Hfuel. by rewrite (concat_pages_from l p Hp fuel 1) by lia.
Qed.

(** C8: for a page size above zero and a page number from 1 on, [hasNext]
    is true exactly when [n * p < length(S)], and false exactly when every
    page after [n] is empty, that is on the last page with items and on
    every page past it. *)
Theorem has_next_spec l n p :
  1 ≤ n → 0 < p →
  (has_next (paginate l n p) = true ↔ n * p < Z.of_nat (length l)) ∧
  (has_next (paginate l n p) = false ↔
     ∀ m, n < m → items (paginate l m p) = []).
Proof.
  intros Hn Hp. unfold paginate at 1 2; simpl. split.
  - rewrite Z.ltb_lt. lia.
  - rewrite Z.ltb_ge. split.
    + intros Hlen m Hm. apply paginate_items_nil; nia.
    + intros Hnil. specialize (Hnil (n + 1) ltac:(lia)).
      apply paginate_items_nil in Hnil; lia.
Qed.

(** C9: below page 1.  Page 0 has no items and the offset [-p]; a page
    [n ≤ -1] with [(1-n) * p ≤ length(S)] has the [p] items that start
    [(1-n) * p] places before the end, and the offset [(n-1) * p].  With 25
    elements, page -1 of size 10 is positions 5 to 14 at offset -20. *)
Theorem paginate_below_first_page l p :
  0 < p →
  (items (paginate l 0 p) = [] ∧ offset (paginate l 0 p) = - p) ∧
  (∀ n, n ≤ -1 → (1 - n) * p ≤ Z.of_nat (length l) →
     items (paginate l n p) =
       take (Z.to_nat p)
         (drop (Z.to_nat (Z.of_nat (length l) - (1 - n) * p)) l) ∧
     Z.of_nat (length (items (paginate l n p))) = p ∧
     items (paginate l n p) ≠ [] ∧
     offset (paginate l n p) = (n - 1) * p ∧
     offset (paginate l n p) < 0) ∧
  (length l = 25%nat →
     items (paginate l (-1) 10) = take 10 (drop 5 l) ∧
     offset (paginate l (-1) 10) = -20).
Proof.
  intros Hp. split_and!.
  - unfold paginate; simpl. apply slice_stop_nonpos. lia.
  - unfold paginate; simpl. lia.
  - intros n Hn Hlen.
    assert (Hitems : items (paginate l n p) =
      take (Z.to_nat p)
        (drop (Z.to_nat (Z.of_nat (length l) - (1 - n) * p)) l)).
    { unfold paginate; simpl. rewrite slice_neg by nia.
      do 2 f_equal; lia. }
    assert (Hlength : Z.of_nat (length (items (paginate l n p))) = p).
    { rewrite Hitems, length_take, length_drop. nia. }
    split_and!; [done | done | | unfold paginate; simpl; lia
                | unfold paginate; simpl; nia].
    intros Hnil. rewrite Hnil in Hlength. simpl in Hlength. lia.
  - intros Hlen. unfold paginate; simpl.
    rewrite slice_neg by lia. by rewrite Hlen.
Qed.

End Pages.

Lemma concat_pages_all_witness :
  (0 < 2 ∧ (length [1; 2; 3; 4; 5]%nat < 6)%nat) ∧
  concat_pages 6 [1; 2; 3; 4; 5]%nat 1 2 = Some [1; 2; 3; 4; 5]%nat.
Proof.
  split; [simpl; lia|].
  apply (concat_pages_all [1; 2; 3; 4; 5]%nat 2 6); simpl; lia.
Defined.

Lemma has_next_spec_witness :
  (1 ≤ 2 ∧ 0 < 2) ∧
  (has_next (paginate [1; 2; 3; 4; 5]%nat 2 2) = true ↔
     2 * 2 < Z.of_nat (length [1; 2; 3; 4; 5]%nat)).
Proof.
  split; [lia|].
  apply (has_next_spec [1; 2; 3; 4; 5]%nat 2 2); lia.
Defined.

Lemma paginate_below_first_page_witness :
  0 < 10 ∧
  items (paginate (seq 0 25) 0 10) = [] ∧
  offset (paginate (seq 0 25) 0 10) = -10 ∧
  items (paginate (seq 0 25) (-1) 10) = seq 5 10 ∧
  offset (paginate (seq 0 25) (-1) 10) = -20.
Proof.
  split; [lia|].
  destruct (paginate_below_first_page (seq 0 25) 10 ltac:(lia))
    as ((Hzero & Hoff) & _ & Hex).
  destruct (Hex eq_refl) as (Hitems & Hoff').
  split_and!; [exact Hzero | exact Hoff | exact Hitems | exact Hoff'].
Defined.

(** ** Comprehensions over the catalog *)

Lemma getitem_title f : getitem (film_dict f) "title" = Ok (VStr (title f)).
Proof. unfold getitem, film_dict. by simplify_map_eq. Qed.

Lemma getitem_genre f : getitem (film_dict f) "genre" = Ok (VStr (genre f)).
Proof. unfold getitem, film_dict. by simplify_map_eq. Qed.

Lemma getitem_year f : getitem (film_dict f) "year" = Ok (VInt (year f)).
Proof. unfold getitem, film_dict. by simplify_map_eq. Qed.

(** What a comprehension keeps, in the order of the list, whatever the films
    are, when no condition raises. *)
Lemma comprehension_Ok cond films kept :
  comprehension cond films = Ok kept →
  sublist kept films ∧
  Forall (λ d, cond d = Ok true) kept ∧
  (∀ d, d ∈ films → cond d = Ok true → d ∈ kept).
Proof.
  revert kept. induction films as [|d films IH]; intros kept; simpl.
  - intros [= <-]. split_and!; [done | done |]. by intros d ?%elem_of_nil.
  - destruct (cond d) as [b|e] eqn:Hd; simpl; [|done].
    destruct (comprehension cond films) as [kept'|e] eqn:Hrest; simpl; [|done].
    destruct (IH kept' eq_refl) as (Hsub & Hall & Hin).
    intros [= <-]. destruct b.
    + split_and!; [by constructor | by constructor |].
      intros d' [->|Hd']%elem_of_cons ?; [left | right; auto].
    + split_and!; [by constructor | done |].
      intros d' [->|Hd']%elem_of_cons ?; [congruence | auto].
Qed.

(** On the dicts of typed films no condition raises, and the comprehension
    is a [filter]. *)
Lemma comprehension_film_dict cond (b : Film → bool) (C : list Film) :
  (∀ f, cond (film_dict f) = Ok (b f)) →
  comprehension cond (film_dict <$> C) = Ok (film_dict <$> List.filter b C).
Proof.
  intros Hcond. induction C as [|f C IH]; [done|].
  rewrite fmap_cons. cbn [comprehension List.filter].
  rewrite Hcond, IH; simpl. by destruct (b f).
Qed.

Lemma list_filter_sublist {A} (b : A → bool) (l : list A) :
  sublist (List.filter b l) l.
Proof.
  induction l as [|x l IH]; simpl; [constructor|].
  destruct (b x); by constructor.
Qed.

Lemma elem_of_list_filter_bool {A} (b : A → bool) (l : list A) x :
  x ∈ List.filter b l ↔ x ∈ l ∧ b x = true.
Proof. rewrite !list_elem_of_In. apply filter_In. Qed.

Section Filter.
Context `{CaseMapping}.

Lemma criterion_cond_film_dict c f :
  criterion_cond c (film_dict f) = Ok (matches c f).
Proof.
  destruct c as [g|k|a b]; simpl.
  - unfold genre_cond. by rewrite getitem_genre.
  - unfold keyword_cond. by rewrite getitem_title.
  - unfold year_cond. rewrite getitem_year; simpl.
    by destruct (a <=? year f).
Qed.

(** The comprehensions of the source compute the specification's
    [filter]. *)
Lemma comprehension_filter_films C c :
  comprehension (criterion_cond c) (film_dict <$> C) =
    Ok (film_dict <$> filter_films C c).
Proof. apply comprehension_film_dict, criterion_cond_film_dict. Qed.

Lemma comprehension_genre C g :
  comprehension (genre_cond g) (film_dict <$> C) =
    Ok (film_dict <$> filter_films C (Genre g)).
Proof. apply (comprehension_filter_films C (Genre g)). Qed.

Lemma comprehension_keyword C k :
  comprehension (keyword_cond (str_lower k)) (film_dict <$> C) =
    Ok (film_dict <$> filter_films C (KeywordInTitle k)).
Proof. apply (comprehension_filter_films C (KeywordInTitle k)). Qed.

Lemma comprehension_year C a b :
  comprehension (year_cond a b) (film_dict <$> C) =
    Ok (film_dict <$> filter_films C (YearRange a b)).
Proof. apply (comprehension_filter_films C (YearRange a b)). Qed.

(** C4: the films kept for a genre [g] all have exactly [g] as their genre,
    code point for code point; they are in the order they have in the
    catalog; and every film of that genre is kept.  Both variants page this
    list ([main.py] also stores it). *)
Theorem genre_filter_spec (C : list Film) (g : pystr) (n : Z)
    (stM : Main.state) (stA : App.state) :
  let kept := filter_films C (Genre g) in
  comprehension (genre_cond g) (film_dict <$> C) = Ok (film_dict <$> kept) ∧
  Forall (λ f, genre f = g) kept ∧
  sublist kept C ∧
  (∀ f, f ∈ C → genre f = g → f ∈ kept) ∧
  Main.films_by_genre (film_dict <$> C) g n stM =
    Ok (TemplateResponse "keyword.html"
          (table_context (Some (py "Genre: " ++ g))
             (paginate (film_dict <$> kept) n PER_PAGE)),
        {| Main.filtered_films := film_dict <$> kept |}) ∧
  App.films_by_genre (film_dict <$> C) g n stA =
    Ok (TemplateResponse "keyword.html"
          (table_context (Some (py "Genre: " ++ g))
             (paginate (film_dict <$> kept) n PER_PAGE)),
        stA).
Proof.
  intros kept.
  assert (Hcomp : comprehension (genre_cond g) (film_dict <$> C) =
                  Ok (film_dict <$> kept))
    by apply comprehension_genre.
  split_and!.
  - done.
  - apply Forall_forall. intros f [_ Hf]%elem_of_list_filter_bool.
    by apply bool_decide_eq_true in Hf.
  - apply list_filter_sublist.
  - intros f Hf Hg. apply elem_of_list_filter_bool. split; [done|].
    by apply bool_decide_eq_true.
  - unfold Main.films_by_genre. by rewrite Hcomp.
  - unfold App.films_by_genre. by rewrite Hcomp.
Qed.

(** C6: a film is kept for the range exactly when [from ≤ year ≤ to], both
    ends included; with [from > to] nothing is kept, and the submit handlers
    answer with their redirect and store the empty list. *)
Theorem year_filter_spec (C : list Film) (a b : Z)
    (stM : Main.state) (stA : App.state) :
  let kept := filter_films C (YearRange a b) in
  comprehension (year_cond a b) (film_dict <$> C) = Ok (film_dict <$> kept) ∧
  sublist kept C ∧
  (∀ f, f ∈ kept ↔ f ∈ C ∧ a ≤ year f ≤ b) ∧
  (a > b →
     kept = [] ∧
     Main.year_form_submit (film_dict <$> C) a b stM =
       Ok (RedirectResponse "/search/year" 303,
           {| Main.filtered_films := [] |}) ∧
     App.year_form_submit (film_dict <$> C) a b stA =
       Ok (RedirectResponse "/search/year" 303,
           {| App.filtered_films := [] |})).
Proof.
  intros kept.
  assert (Hcomp : comprehension (year_cond a b) (film_dict <$> C) =
                  Ok (film_dict <$> kept))
    by apply comprehension_year.
  assert (Hin : ∀ f, f ∈ kept ↔ f ∈ C ∧ a ≤ year f ≤ b).
  { intros f. unfold kept, filter_films.
    rewrite elem_of_list_filter_bool; simpl.
    rewrite andb_true_iff, !Z.leb_le. done. }
  split_and!; [done | apply list_filter_sublist | done |].
  intros Hab.
  assert (Hnil : kept = []).
  { apply elem_of_nil_inv. intros f [_ ?]%Hin. lia. }
  unfold Main.year_form_submit, App.year_form_submit.
  by rewrite Hcomp, Hnil.
Qed.

End Filter.

(** ** Pages of mapped lists *)

Lemma slice_fmap {A B} (g : A → B) (l : list A) start stop :
  slice (g <$> l) start stop = g <$> slice l start stop.
Proof. unfold slice. by rewrite length_fmap, fmap_take, fmap_drop. Qed.

Lemma paginate_fmap {A B} (g : A → B) (l : list A) n p :
  paginate (g <$> l) n p =
    {| items := g <$> items (paginate l n p);
       has_prev := has_prev (paginate l n p);
       has_next := has_next (paginate l n p);
       page := page (paginate l n p);
       offset := offset (paginate l n p) |}.
Proof. unfold paginate; simpl. by rewrite slice_fmap, length_fmap. Qed.

(** ** Requests *)

Section Requests.
Context `{CaseMapping}.

(** On a catalog of typed films every handler answers; none raises. *)
Lemma main_handle_Ok (C : list Film) req st :
  ∃ resp st', Main.handle (film_dict <$> C) req st = Ok (resp, st').
Proof.
  destruct req as [g n|k n|n|a b|n]; simpl.
  - unfold Main.films_by_genre.
    rewrite comprehension_genre. by eexists _, _.
  - unfold Main.keyword_search.
    rewrite comprehension_keyword. by eexists _, _.
  - by eexists _, _.
  - unfold Main.year_form_submit.
    rewrite comprehension_year. by eexists _, _.
  - by eexists _, _.
Qed.

Lemma app_handle_Ok (C : list Film) req st :
  ∃ resp st', App.handle (film_dict <$> C) req st = Ok (resp, st').
Proof.
  destruct req as [g n|k n|n|a b|n]; simpl.
  - unfold App.films_by_genre.
    rewrite comprehension_genre. by eexists _, _.
  - unfold App.keyword_search.
    rewrite comprehension_keyword. by eexists _, _.
  - by eexists _, _.
  - unfold App.year_form_submit.
    rewrite comprehension_year. by eexists _, _.
  - by eexists _, _.
Qed.

(** C3: a year-range submit followed by a view of page [p], nothing in
    between, shows [paginate(filter(catalog, YearRange(from, to)), p,
    PER_PAGE)]: the submit answers with the redirect, and the view renders
    that page of the filtered films.  It is so in both variants. *)
Theorem year_submit_then_view (C : list Film) (a b p : Z)
    (stM : Main.state) (stA : App.state) :
  let found := filter_films C (YearRange a b) in
  let shown := paginate found p PER_PAGE in
  let view :=
    TemplateResponse "year.html"
      (Paginated
         {| ctx_title := None;
            ctx_items := film_dict <$> items shown;
            ctx_columns := columns;
            ctx_page := p;
            ctx_has_prev := has_prev shown;
            ctx_has_next := has_next shown;
            ctx_offset := offset shown |}) in
  serve (Main.handle (film_dict <$> C))
        [POST_search_year a b; GET_search_year p] stM =
    ([Ok (RedirectResponse "/search/year" 303); Ok view],
     {| Main.filtered_films := film_dict <$> found |}) ∧
  serve (App.handle (film_dict <$> C))
        [POST_search_year a b; GET_search_year p] stA =
    ([Ok (RedirectResponse "/search/year" 303); Ok view],
     {| App.filtered_films := film_dict <$> found |}).
Proof.
  intros found shown view.
  assert (Hcomp : comprehension (year_cond a b) (film_dict <$> C) =
                  Ok (film_dict <$> found))
    by apply comprehension_year.
  split; cbn [serve Main.handle App.handle];
    unfold Main.year_form_submit, App.year_form_submit;
    rewrite Hcomp; cbn [mbind result_bind];
    unfold Main.year_search, App.year_search, table_context;
    cbn [Main.filtered_films App.filtered_films];
    by rewrite paginate_fmap.
Qed.

(** C7: no input of the right types makes the engine raise.  The
    comprehensions succeed on every catalog of typed films, the empty one
    and one without a match included, and every handler answers; for a page
    and a page size from 1 on [paginate] gives a valid page, which past the
    last page has no items and no next page; and
    [paginate(empty, 1, 10)] is the empty first page at offset 0. *)
Theorem engine_no_error :
  (∀ c, comprehension (criterion_cond c) [] = Ok []) ∧
  (∀ (C : list Film) c,
     comprehension (criterion_cond c) (film_dict <$> C) =
       Ok (film_dict <$> filter_films C c)) ∧
  (∀ (C : list Film) c,
     (∀ f, f ∈ C → matches c f = false) →
     comprehension (criterion_cond c) (film_dict <$> C) = Ok []) ∧
  (∀ (C : list Film) req st,
     ∃ resp st', Main.handle (film_dict <$> C) req st = Ok (resp, st')) ∧
  (∀ (C : list Film) req st,
     ∃ resp st', App.handle (film_dict <$> C) req st = Ok (resp, st')) ∧
  (∀ (l : list Film) n p,
     1 ≤ n → 1 ≤ p →
     valid_page_result p (paginate l n p) ∧
     (Z.of_nat (length l) ≤ (n - 1) * p →
        items (paginate l n p) = [] ∧ has_next (paginate l n p) = false)) ∧
  paginate (@nil Film) 1 10 =
    {| items := []; has_prev := false; has_next := false;
       page := 1; offset := 0 |}.
Proof.
  split_and!.
  - by intros [].
  - apply comprehension_filter_films.
  - intros C c Hnone. rewrite comprehension_filter_films.
    replace (filter_films C c) with (@nil Film); [done|].
    symmetry. apply elem_of_nil_inv.
    intros f [Hf Hm]%elem_of_list_filter_bool.
    rewrite (Hnone f Hf) in Hm. done.
  - apply main_handle_Ok.
  - apply app_handle_Ok.
  - intros l n p Hn Hp. split.
    + unfold valid_page_result. split_and!.
      * apply paginate_items_length. lia.
      * done.
      * simpl. nia.
      * done.
    + intros Hlen. split.
      * apply paginate_items_nil; lia.
      * unfold paginate; simpl. apply Z.ltb_ge. lia.
  - reflexivity.
Qed.

End Requests.

(** ** Keyword search *)

Lemma startswith_spec s p : startswith s p = true ↔ ∃ post, s = p ++ post.
Proof.
  revert s. induction p as [|a p IH]; intros s; simpl.
  - destruct s; split; eauto.
  - destruct s as [|b s]; simpl.
    + split; [done | by intros [? ?]].
    + rewrite andb_true_iff, bool_decide_eq_true, IH. split.
      * intros [-> [post ->]]. by exists post.
      * intros [post [= -> ->]]. eauto.
Qed.

(** [p in s] holds exactly when [s] is [p] with something before and
    something after. *)
Lemma str_contains_spec s p :
  str_contains s p = true ↔ ∃ pre post, s = pre ++ p ++ post.
Proof.
  induction s as [|c s IH]; cbn [str_contains].
  - rewrite orb_false_r, startswith_spec. split.
    + intros [post Hs]. by exists [], post.
    + intros (pre & post & Hs). symmetry in Hs.
      apply app_eq_nil in Hs as [-> Hs]. by exists post.
  - rewrite orb_true_iff, startswith_spec, IH. split.
    + intros [[post Hs]|(pre & post & ->)].
      * by exists [], post.
      * by exists (c :: pre), post.
    + intros (pre & post & Hs). destruct pre as [|c' pre]; simpl in Hs.
      * left. by exists post.
      * right. injection Hs as -> ->. by exists pre, post.
Qed.

Section Keyword.
Context `{CaseMapping}.

(** C5, amended: for a keyword [k] with [lower(upper(k)) = lower(k)], the
    keyword filter gives the same films for [k] and for [upper(k)], namely
    the films whose lowercased title has the lowercased keyword as a
    substring, and the handlers of both variants answer the two keywords
    alike on any list of films. *)
Theorem keyword_filter_upper (C : list Film) (films : list dict)
    (k : pystr) (n : Z) (stM : Main.state) (stA : App.state) :
  str_lower (str_upper k) = str_lower k →
  let kept := filter_films C (KeywordInTitle k) in
  filter_films C (KeywordInTitle (str_upper k)) = kept ∧
  (∀ f, f ∈ kept ↔
        f ∈ C ∧ ∃ pre post, str_lower (title f) = pre ++ str_lower k ++ post) ∧
  comprehension (keyword_cond (str_lower k)) (film_dict <$> C) =
    Ok (film_dict <$> kept) ∧
  Main.keyword_search films (str_upper k) stM =
    Main.keyword_search films k stM ∧
  App.keyword_search films (str_upper k) n stA =
    App.keyword_search films k n stA.
Proof.
  intros Hk kept. split_and!.
  - unfold kept, filter_films, matches. by rewrite Hk.
  - intros f. unfold kept, filter_films.
    rewrite elem_of_list_filter_bool. unfold matches.
    by rewrite str_contains_spec.
  - apply comprehension_keyword.
  - unfold Main.keyword_search. by rewrite Hk.
  - unfold App.keyword_search. by rewrite Hk.
Qed.

End Keyword.

(** On ASCII the Latin-1 table takes [upper] back with [lower]. *)
Lemma lower_upper_cp_ascii c :
  (c < 128)%N → lower_cp <$> upper_cp c = [lower_cp c].
Proof.
  intros Hc. unfold upper_cp, lower_cp.
  repeat (match goal with
          | |- context [N.leb ?a ?b] => destruct (N.leb_spec a b)
          | |- context [N.eqb ?a ?b] => destruct (N.eqb_spec a b)
          end; simpl; try lia);
    f_equal; lia.
Qed.

Lemma latin1_lower_upper_ascii k :
  Forall (λ c, (c < 128)%N) k →
  latin1_lower (latin1_upper k) = latin1_lower k.
Proof.
  unfold latin1_lower, latin1_upper.
  induction 1 as [|c k Hc _ IH]; [done|].
  rewrite bind_cons, fmap_app, IH, lower_upper_cp_ascii by done. done.
Qed.

(** ** The shared slot and the browse-by-genre action *)

Section Slot.
Context `{CaseMapping}.

(** Runs the handlers of a list of requests on a catalog of typed films. *)
Ltac run_requests :=
  repeat progress
    (cbn [serve Main.handle App.handle fst snd mbind result_bind];
     unfold Main.films_by_genre, Main.keyword_search, Main.keyword_form,
       Main.year_form_submit, Main.year_search,
       App.films_by_genre, App.keyword_search, App.keyword_form,
       App.year_form_submit, App.year_search;
     rewrite ?comprehension_year, ?comprehension_genre,
       ?comprehension_keyword).

(** C10: in [main.py] the browse-by-genre action stores the films of the
    genre in [filtered_films], so a view that comes after a year or keyword
    submit and a genre browse pages the films of the genre, and there are
    runs in which that is not what the view shows without the browse.  In
    [app.py] the action leaves [filtered_films] as it is, and the view after
    a year submit is the same with or without the browse. *)
Theorem genre_browse_slot :
  (∀ (C : list Film) g q stM,
     ∃ resp, Main.films_by_genre (film_dict <$> C) g q stM =
       Ok (resp,
           {| Main.filtered_films := film_dict <$> filter_films C (Genre g) |})) ∧
  (∀ (C : list Film) a b g q p stM,
     (serve (Main.handle (film_dict <$> C))
        [POST_search_year a b; GET_genres_genre g q; GET_search_year p]
        stM).1 !! 2%nat =
     Some (Ok (TemplateResponse "year.html"
                 (table_context None
                    (paginate (film_dict <$> filter_films C (Genre g))
                       p PER_PAGE))))) ∧
  (∀ (C : list Film) k g q p stM,
     (serve (Main.handle (film_dict <$> C))
        [POST_search_keyword k 1; GET_genres_genre g q; GET_search_keyword p]
        stM).1 !! 2%nat =
     Some (Ok (TemplateResponse "keyword.html"
                 (table_context (Some (py "Search by keyword"))
                    (paginate (film_dict <$> filter_films C (Genre g))
                       p PER_PAGE))))) ∧
  (∃ (C : list Film) a b g q p stM,
     (serve (Main.handle (film_dict <$> C))
        [POST_search_year a b; GET_genres_genre g q; GET_search_year p]
        stM).1 !! 2%nat ≠
     (serve (Main.handle (film_dict <$> C))
        [POST_search_year a b; GET_search_year p] stM).1 !! 1%nat) ∧
  (∀ (C : list Film) g q stA,
     ∃ resp, App.films_by_genre (film_dict <$> C) g q stA = Ok (resp, stA)) ∧
  (∀ (C : list Film) a b g q p stA,
     (serve (App.handle (film_dict <$> C))
        [POST_search_year a b; GET_genres_genre g q; GET_search_year p]
        stA).1 !! 2%nat =
     (serve (App.handle (film_dict <$> C))
        [POST_search_year a b; GET_search_year p] stA).1 !! 1%nat).
Proof.
  split_and!.
  - intros. run_requests. by eexists.
  - intros. by run_requests.
  - intros. by run_requests.
  - exists [ {| title := py "Alien"; description := []; genre := py "Horror";
               year := 1979 |};
             {| title := py "Brazil"; description := []; genre := py "Comedy";
               year := 1985 |} ],
      1980, 1990, (py "Horror"), 1, 1, Main.init.
    run_requests. vm_compute. intros [=].
  - intros. run_requests. by eexists.
  - intros. by run_requests.
Qed.

End Slot.

(** * Further properties of the code *)

(** ** Pages at any page number *)

Section AnyPage.
Context {A : Type}.
Implicit Types l : list A.

Lemma slice_run l start stop :
  ∃ pre post, l = pre ++ slice l start stop ++ post.
Proof.
  unfold slice.
  set (lo := Z.to_nat (slice_index (Z.of_nat (length l)) start)).
  set (k := Z.to_nat _).
  exists (take lo l), (drop k (drop lo l)).
  by rewrite (take_drop k), (take_drop lo).
Qed.

(** X1: whatever the page number, the items of a page are one contiguous run
    of the list, and with a page size that is not negative there are at
    most that many. *)
Theorem paginate_items_run l n p :
  0 ≤ p →
  (∃ pre post, l = pre ++ items (paginate l n p) ++ post) ∧
  Z.of_nat (length (items (paginate l n p))) ≤ p.
Proof.
  intros Hp. split.
  - apply slice_run.
  - by apply paginate_items_length.
Qed.

(** X2: from page 1 on, a page holds
    [min(per_page, max(0, len - (page-1)*per_page))] items; a page that
    offers a next page is full. *)
Theorem paginate_items_count l n p :
  1 ≤ n → 0 < p →
  Z.of_nat (length (items (paginate l n p))) =
    Z.min p (Z.max 0 (Z.of_nat (length l) - (n - 1) * p)) ∧
  (has_next (paginate l n p) = true →
     Z.of_nat (length (items (paginate l n p))) = p).
Proof.
  intros Hn Hp.
  assert (Hlen : Z.of_nat (length (items (paginate l n p))) =
                 Z.min p (Z.max 0 (Z.of_nat (length l) - (n - 1) * p))).
  { rewrite paginate_items by lia. rewrite length_take, length_drop. nia. }
  split; [done|].
  intros Hnext. rewrite Hlen.
  unfold paginate in Hnext; simpl in Hnext. apply Z.ltb_lt in Hnext. lia.
Qed.

(** X3: for a page size above zero, the pages with items are the pages
    [n ≥ 1] whose offset is inside the list and the pages [n ≤ -1] with
    [-n * per_page < len]; page 0 never has any. *)
Theorem paginate_nonempty_iff l n p :
  0 < p →
  items (paginate l n p) ≠ [] ↔
    (1 ≤ n ∧ (n - 1) * p < Z.of_nat (length l)) ∨
    (n ≤ -1 ∧ - n * p < Z.of_nat (length l)).
Proof.
  intros Hp.
  rewrite <-length_zero_iff_nil.
  unfold paginate, slice, slice_index; simpl.
  rewrite length_take, length_drop.
  destruct (Z.ltb_spec ((n - 1) * p) 0);
    destruct (Z.ltb_spec ((n - 1) * p + p) 0); nia.
Qed.

(** X4: below page 1 no previous page is offered; from page -1 down a next
    page is always offered, even for an empty list, and page 0 offers one
    exactly when the list is not empty. *)
Theorem paginate_flags_below_first_page l n p :
  0 < p → n ≤ 0 →
  has_prev (paginate l n p) = false ∧
  (n ≤ -1 → has_next (paginate l n p) = true) ∧
  (n = 0 → has_next (paginate l n p) = bool_decide (l ≠ [])).
Proof.
  intros Hp Hn. unfold paginate; simpl. split_and!.
  - rewrite Z.gtb_ltb. apply Z.ltb_ge. lia.
  - intros Hneg. apply Z.ltb_lt. nia.
  - intros ->. replace ((0 - 1) * p + p) with 0 by ring.
    destruct l as [|x l].
    + by rewrite bool_decide_eq_false_2 by (intros Hne; by apply Hne).
    + rewrite bool_decide_eq_true_2 by done. apply Z.ltb_lt. simpl. lia.
Qed.

Lemma follow_next_from l p :
  0 < p →
  ∀ (fuel : nat) n,
    1 ≤ n →
    (Z.to_nat (Z.of_nat (length l) - (n - 1) * p) < fuel)%nat →
    follow_next fuel l n p = Some (drop (Z.to_nat ((n - 1) * p)) l).
Proof.
  intros Hp fuel. induction fuel as [|fuel IH]; intros n Hn Hfuel; [lia|].
  cbn [follow_next].
  destruct (has_next (paginate l n p)) eqn:Hnext.
  - unfold paginate in Hnext; simpl in Hnext. apply Z.ltb_lt in Hnext.
    rewrite IH by lia. cbn [mbind option_bind]. f_equal.
    rewrite paginate_items by lia.
    replace ((n + 1 - 1) * p) with ((n - 1) * p + p) by ring.
    rewrite Z2Nat.inj_add by nia.
    by rewrite <-drop_drop, take_drop.
  - unfold paginate in Hnext; simpl in Hnext. apply Z.ltb_ge in Hnext.
    f_equal. rewrite paginate_items by lia.
    apply take_ge. rewrite length_drop. nia.
Qed.

(** X5: a reader who starts on page 1 and follows [has_next] until it is no
    longer offered has seen the whole list, in order, each element once;
    [len + 1] pages are always enough. *)
Theorem follow_next_all l p (fuel : nat) :
  0 < p → (length l < fuel)%nat → follow_next fuel l 1 p = Some l.
Proof.
  intros Hp Hfuel. by rewrite (follow_next_from l p Hp fuel 1) by lia.
Qed.

End AnyPage.

(** ** What makes a handler raise *)

(** A comprehension succeeds exactly when the condition succeeds on every
    film; otherwise its exception is that of the first film on which the
    condition raises. *)
Lemma comprehension_Ok_iff cond films :
  (∃ kept, comprehension cond films = Ok kept) ↔
  Forall (λ d, ∃ b, cond d = Ok b) films.
Proof.
  induction films as [|d films IH]; simpl.
  - split; [by constructor | by exists []].
  - rewrite Forall_cons, <-IH. split.
    + intros [kept Hk]. destruct (cond d) as [b|e]; [|done]. split; [by exists b|].
      destruct (comprehension cond films) as [kept'|e]; [by exists kept' | done].
    + intros [[b ->] [kept' ->]]. simpl. by eexists.
Qed.

Lemma comprehension_Raise_iff cond films e :
  comprehension cond films = Raise e ↔
  ∃ pre d post,
    films = pre ++ d :: post ∧
    Forall (λ x, ∃ b, cond x = Ok b) pre ∧
    cond d = Raise e.
Proof.
  induction films as [|d films IH]; simpl.
  - split; [done|]. intros (pre & d & post & Hf & _). by destruct pre.
  - destruct (cond d) as [b|e'] eqn:Hd; simpl.
    + destruct (comprehension cond films) as [kept|e'] eqn:Hrest; simpl.
      * split; [done|]. intros (pre & d' & post & Hf & Hpre & Hd').
        destruct pre as [|x pre]; simplify_eq/=; try congruence.
        apply Forall_cons in Hpre as [_ Hpre].
        assert (Ok kept = Raise e) as [=]. apply IH. by exists pre, d', post.
      * split.
        -- intros [= ->]. destruct (proj1 IH eq_refl) as (pre & d' & post & -> & Hpre & Hd').
           exists (d :: pre), d', post. split_and!; [done | | done].
           constructor; [by exists b | done].
        -- intros (pre & d' & post & Hf & Hpre & Hd').
           destruct pre as [|x pre]; simplify_eq/=; try congruence.
           apply Forall_cons in Hpre as [_ Hpre].
           apply IH. by exists pre, d', post.
    + split.
      * intros [= ->]. by exists [], d, films.
      * intros (pre & d' & post & Hf & Hpre & Hd').
        destruct pre as [|x pre]; simplify_eq/=; [congruence|].
        apply Forall_cons in Hpre as [[b Hb] _]. congruence.
Qed.

Lemma genre_cond_Ok g d b :
  genre_cond g d = Ok b ↔ ∃ v, d !! "genre" = Some v ∧ b = value_eq_str v g.
Proof.
  unfold genre_cond, getitem. destruct (d !! "genre") as [v|]; simpl.
  - split; [intros [= <-]; by exists v | by intros (? & [= <-] & ->)].
  - split; [done | by intros (? & ? & _)].
Qed.

Lemma genre_cond_Raise g d e :
  genre_cond g d = Raise e ↔ d !! "genre" = None ∧ e = KeyError "genre".
Proof.
  unfold genre_cond, getitem. destruct (d !! "genre") as [v|]; simpl.
  - split; [done | by intros [? _]].
  - split; [by intros [= <-] | by intros [_ ->]].
Qed.



Section Raises.
Context `{CaseMapping}.

Lemma keyword_cond_Ok kw d b :
  keyword_cond kw d = Ok b ↔
  ∃ t, d !! "title" = Some (VStr t) ∧ b = str_contains (str_lower t) kw.
Proof.
  unfold keyword_cond, getitem. destruct (d !! "title") as [[|y|s]|]; simpl.
  - split; [done | by intros (? & ? & _)].
  - split; [done | by intros (? & ? & _)].
  - split; [intros [= <-]; by exists s | by intros (? & [= <-] & ->)].
  - split; [done | by intros (? & ? & _)].
Qed.

Lemma keyword_cond_Raise kw d e :
  keyword_cond kw d = Raise e ↔
  (d !! "title" = None ∧ e = KeyError "title") ∨
  (∃ v, d !! "title" = Some v ∧ (∀ t, v ≠ VStr t) ∧ e = AttributeError).
Proof.
  unfold keyword_cond, getitem. destruct (d !! "title") as [[|y|s]|]; simpl.
  - split; [intros [= <-]; right; by exists VNone|].
    by intros [[? _]|(? & [= <-] & _ & ->)].
  - split; [intros [= <-]; right; by exists (VInt y)|].
    by intros [[? _]|(? & [= <-] & _ & ->)].
  - split; [done|]. intros [[? _]|(? & [= <-] & Hv & _)]; [done|].
    by destruct (Hv s).
  - split; [intros [= <-]; by left|].
    by intros [[_ ->]|(? & ? & _)].
Qed.

End Raises.

Lemma genre_comprehension_Raise films g e :
  comprehension (genre_cond g) films = Raise e ↔
  e = KeyError "genre" ∧ Exists (λ d, d !! "genre" = None) films.
Proof.
  assert (Hfwd : ∀ e', comprehension (genre_cond g) films = Raise e' →
            e' = KeyError "genre" ∧ Exists (λ d, d !! "genre" = None) films).
  { intros e' (pre & d & post & -> & _ & [Hd ->]%genre_cond_Raise)
      %comprehension_Raise_iff.
    split; [done|]. apply Exists_app. right. by constructor. }
  split; [apply Hfwd|]. intros [-> (d & Hin & Hd)%Exists_exists].
  destruct (comprehension (genre_cond g) films) as [kept|e'] eqn:Hc.
  - assert (Hall : Forall (λ d, ∃ b, genre_cond g d = Ok b) films)
      by (apply comprehension_Ok_iff; by exists kept).
    rewrite Forall_forall in Hall.
    destruct (Hall d Hin) as [b (v & Hv & _)%genre_cond_Ok]. congruence.
  - by destruct (Hfwd e' eq_refl) as [-> _].
Qed.

Section HandlerErrors.
Context `{CaseMapping}.

(** X6: browsing a genre raises exactly when some film has no ["genre"]
    key, and then it is [KeyError('genre')]; a genre that is [null] or a
    number is no error.  Both variants. *)
Theorem films_by_genre_raises films g n (stM : Main.state)
    (stA : App.state) e :
  (Main.films_by_genre films g n stM = Raise e ↔
     e = KeyError "genre" ∧ Exists (λ d, d !! "genre" = None) films) ∧
  (App.films_by_genre films g n stA = Raise e ↔
     e = KeyError "genre" ∧ Exists (λ d, d !! "genre" = None) films).
Proof.
  rewrite <-(genre_comprehension_Raise films g e).
  unfold Main.films_by_genre, App.films_by_genre.
  destruct (comprehension (genre_cond g) films) as [kept|e'];
    cbn [mbind result_bind]; split; split; intros Hx; by try inversion Hx.
Qed.

(** X7: a film that is skipped or kept by the genre browse needs no
    particular shape.  On any list of films on which the browse does not
    raise, the films shown are those whose ["genre"] is the string [g], in
    catalog order; [main.py] stores them, and [app.py] gives the same
    response. *)
Theorem films_by_genre_any_catalog films g n (stM stM' : Main.state)
    (stA : App.state) resp :
  Main.films_by_genre films g n stM = Ok (resp, stM') →
  let kept := Main.filtered_films stM' in
  sublist kept films ∧
  (∀ d, d ∈ kept ↔ d ∈ films ∧ d !! "genre" = Some (VStr g)) ∧
  resp = TemplateResponse "keyword.html"
           (table_context (Some (py "Genre: " ++ g))
              (paginate kept n PER_PAGE)) ∧
  App.films_by_genre films g n stA = Ok (resp, stA).
Proof.
  unfold Main.films_by_genre, App.films_by_genre.
  destruct (comprehension (genre_cond g) films) as [kept|] eqn:Hc; [|done].
  simpl. intros [= <- <-]. simpl.
  destruct (comprehension_Ok _ _ _ Hc) as (Hsub & Hall & Hin).
  assert (Hcond : ∀ d, genre_cond g d = Ok true ↔
                       d !! "genre" = Some (VStr g)).
  { intros d. rewrite genre_cond_Ok. split.
    - intros (v & Hv & Heq). destruct v; try done.
      symmetry in Heq. apply bool_decide_eq_true in Heq. by subst.
    - intros Hd. exists (VStr g). split; [done|].
      simpl. by rewrite bool_decide_eq_true_2. }
  split_and!; [done | | done | done].
  intros d. split.
  - intros Hd. split; [by eapply elem_of_sublist|].
    rewrite Forall_forall in Hall. by apply Hcond, Hall.
  - intros [Hd Hg]. by apply Hin, Hcond.
Qed.


(** X9: a keyword search succeeds exactly when every film has a string
    ["title"]; otherwise the first film that has not decides the exception:
    [KeyError('title')] when the key is missing, [AttributeError] when the
    value has no [lower].  Both variants. *)
Theorem keyword_search_raises films k n (stM : Main.state)
    (stA : App.state) e :
  let str_title := λ d : dict, ∃ t, d !! "title" = Some (VStr t) in
  let first_bad :=
    ∃ pre d post,
      films = pre ++ d :: post ∧ Forall str_title pre ∧
      ((d !! "title" = None ∧ e = KeyError "title") ∨
       (∃ v, d !! "title" = Some v ∧ (∀ t, v ≠ VStr t) ∧
             e = AttributeError)) in
  (Main.keyword_search films k stM = Raise e ↔ first_bad) ∧
  (App.keyword_search films k n stA = Raise e ↔ first_bad) ∧
  ((∃ out, Main.keyword_search films k stM = Ok out) ↔
     Forall str_title films) ∧
  ((∃ out, App.keyword_search films k n stA = Ok out) ↔
     Forall str_title films).
Proof.
  intros str_title first_bad.
  set (kw := str_lower k).
  assert (Hstr : ∀ l, Forall (λ x, ∃ r, keyword_cond kw x = Ok r) l ↔
                      Forall str_title l).
  { intros l. apply Forall_iff. intros d. split.
    - intros [r (t & Ht & _)%keyword_cond_Ok]. by exists t.
    - intros [t Ht]. eexists. apply keyword_cond_Ok. by exists t. }
  assert (Hraise : comprehension (keyword_cond kw) films = Raise e ↔ first_bad).
  { rewrite comprehension_Raise_iff. unfold first_bad.
    do 3 (apply exist_proper; intros ?).
    by rewrite Hstr, keyword_cond_Raise. }
  assert (Hok : (∃ kept, comprehension (keyword_cond kw) films = Ok kept) ↔
                Forall str_title films)
    by (by rewrite comprehension_Ok_iff, Hstr).
  rewrite <-Hraise, <-Hok.
  unfold Main.keyword_search, App.keyword_search. fold kw.
  destruct (comprehension (keyword_cond kw) films) as [kept|e'];
    cbn [mbind result_bind]; split_and!;
    (split; intros Hx;
     first [done | by inversion Hx | by destruct Hx | by eexists]).
Qed.

End HandlerErrors.

(** ** The slot over a run of requests *)

Ltac run_handlers :=
  repeat progress
    (cbn [serve Main.handle App.handle fst snd mbind result_bind];
     unfold Main.films_by_genre, Main.keyword_search, Main.keyword_form,
       Main.year_form_submit, Main.year_search,
       App.films_by_genre, App.keyword_search, App.keyword_form,
       App.year_form_submit, App.year_search;
     rewrite ?comprehension_year, ?comprehension_genre,
       ?comprehension_keyword).

Section SlotRuns.
Context `{CaseMapping}.

Lemma main_handle_sublist films req (st st' : Main.state) resp :
  Main.handle films req st = Ok (resp, st') →
  sublist (Main.filtered_films st) films →
  sublist (Main.filtered_films st') films.
Proof.
  destruct req as [g n|k n|n|a b|n]; simpl;
    unfold Main.films_by_genre, Main.keyword_search, Main.keyword_form,
      Main.year_form_submit, Main.year_search.
  - destruct (comprehension _ films) as [kept|] eqn:Hc; [|done].
    intros [= _ <-] _. by apply comprehension_Ok in Hc as [? _].
  - destruct (comprehension _ films) as [kept|] eqn:Hc; [|done].
    intros [= _ <-] _. by apply comprehension_Ok in Hc as [? _].
  - by intros [= _ <-].
  - destruct (comprehension _ films) as [kept|] eqn:Hc; [|done].
    intros [= _ <-] _. by apply comprehension_Ok in Hc as [? _].
  - by intros [= _ <-].
Qed.

Lemma app_handle_sublist films req (st st' : App.state) resp :
  App.handle films req st = Ok (resp, st') →
  sublist (App.filtered_films st) films →
  sublist (App.filtered_films st') films.
Proof.
  destruct req as [g n|k n|n|a b|n]; simpl;
    unfold App.films_by_genre, App.keyword_search, App.keyword_form,
      App.year_form_submit, App.year_search.
  - destruct (comprehension _ films) as [kept|]; [|done]. by intros [= _ <-].
  - destruct (comprehension _ films) as [kept|]; [|done]. by intros [= _ <-].
  - by intros [= _ <-].
  - destruct (comprehension _ films) as [kept|] eqn:Hc; [|done].
    intros [= _ <-] _. by apply comprehension_Ok in Hc as [? _].
  - by intros [= _ <-].
Qed.

Lemma serve_preserves {St} (handle : request → St → result (response * St))
    (P : St → Prop) :
  (∀ req st resp st', handle req st = Ok (resp, st') → P st → P st') →
  ∀ reqs st, P st → P (serve handle reqs st).2.
Proof.
  intros Hstep reqs. induction reqs as [|req reqs IH]; intros st Hst; [done|].
  simpl. destruct (handle req st) as [[resp st']|e] eqn:Hh.
  - specialize (IH st' (Hstep _ _ _ _ Hh Hst)).
    by destruct (serve handle reqs st').
  - specialize (IH st Hst). by destruct (serve handle reqs st).
Qed.

(** X10: as long as the catalog file stays the same, [filtered_films] holds
    at every moment of a process some of the films of the catalog, in
    catalog order, whatever requests were served, failed ones included.
    Both variants. *)
Theorem slot_sublist_of_catalog films reqs :
  sublist (Main.filtered_films (serve (Main.handle films) reqs Main.init).2)
          films ∧
  sublist (App.filtered_films (serve (App.handle films) reqs App.init).2)
          films.
Proof.
  split.
  - apply (serve_preserves (Main.handle films)
             (λ st, sublist (Main.filtered_films st) films)).
    + intros req st resp st'. apply main_handle_sublist.
    + apply sublist_nil_l.
  - apply (serve_preserves (App.handle films)
             (λ st, sublist (App.filtered_films st) films)).
    + intros req st resp st'. apply app_handle_sublist.
    + apply sublist_nil_l.
Qed.

(** X11: the keyword search in the two variants.  In [main.py] the submit
    stores the matching films and redirects, and the view of page [p] pages
    them.  In [app.py] the submit itself renders page [n] of the matching
    films, the slot stays as it was, and the view is an empty form. *)
Theorem keyword_submit_then_view (C : list Film) (k : pystr) (n p : Z)
    (stM : Main.state) (stA : App.state) :
  let found := film_dict <$> filter_films C (KeywordInTitle k) in
  let table q :=
    TemplateResponse "keyword.html"
      (table_context (Some (py "Search by keyword"))
         (paginate found q PER_PAGE)) in
  serve (Main.handle (film_dict <$> C))
        [POST_search_keyword k n; GET_search_keyword p] stM =
    ([Ok (RedirectResponse "/search/keyword" 303); Ok (table p)],
     {| Main.filtered_films := found |}) ∧
  serve (App.handle (film_dict <$> C))
        [POST_search_keyword k n; GET_search_keyword p] stA =
    ([Ok (table n);
      Ok (TemplateResponse "keyword.html"
            (TitleItems (py "Search by keyword") []))],
     stA).
Proof. intros found table. split; by run_handlers. Qed.

(** X12: the keyword and the year routes of [main.py] share the slot: the
    year view after a keyword submit pages the keyword matches, and the
    keyword view after a year submit pages the films of the range.  In
    [app.py] a keyword search leaves what the year view shows as it was. *)
Theorem keyword_year_routes_share_slot (C : list Film) (k : pystr)
    (a b n p : Z) (stM : Main.state) (stA : App.state) :
  (serve (Main.handle (film_dict <$> C))
     [POST_search_keyword k n; GET_search_year p] stM).1 !! 1%nat =
    Some (Ok (TemplateResponse "year.html"
                (table_context None
                   (paginate (film_dict <$> filter_films C (KeywordInTitle k))
                      p PER_PAGE)))) ∧
  (serve (Main.handle (film_dict <$> C))
     [POST_search_year a b; GET_search_keyword p] stM).1 !! 1%nat =
    Some (Ok (TemplateResponse "keyword.html"
                (table_context (Some (py "Search by keyword"))
                   (paginate (film_dict <$> filter_films C (YearRange a b))
                      p PER_PAGE)))) ∧
  (serve (App.handle (film_dict <$> C))
     [POST_search_keyword k n; GET_search_year p] stA).1 !! 1%nat =
    (serve (App.handle (film_dict <$> C)) [GET_search_year p] stA).1 !! 0%nat.
Proof. split_and!; by run_handlers. Qed.

End SlotRuns.

(** ** Ordering values *)


Lemma str_lt_trans s t u :
  str_lt s t = true → str_lt t u = true → str_lt s u = true.
Proof.
  revert t u. induction s as [|a s IH]; intros [|b t] [|c u]; simpl; try done.
  rewrite !orb_true_iff, !andb_true_iff, !N.ltb_lt, !N.eqb_eq.
  intros [?|[-> ?]] [?|[-> ?]]; [left; lia | by left | by left |].
  right. split; [done|]. by eapply IH.
Qed.

(** Two strings are equal or one is below the other. *)
Lemma str_lt_total s t :
  str_lt s t = false → s ≠ t → str_lt t s = true.
Proof.
  revert t. induction s as [|a s IH]; intros [|b t]; simpl; try done.
  rewrite orb_false_iff, andb_false_iff, orb_true_iff, andb_true_iff,
    N.ltb_ge, N.ltb_lt, !N.eqb_neq, N.eqb_eq.
  intros [Hle Hrest] Hne.
  destruct (decide (a = b)) as [->|Hab]; [|left; lia].
  right. split; [done|]. destruct Hrest as [?|Hrest]; [done|].
  apply IH; [done|]. congruence.
Qed.


Lemma vlt_trans a b c : vlt a b → vlt b c → vlt a c.
Proof.
  unfold vlt. destruct a as [|x|s], b as [|y|t], c as [|z|u]; simpl; try done.
  - intros [= ?%Z.ltb_lt] [= ?%Z.ltb_lt]. f_equal. apply Z.ltb_lt. lia.
  - intros [= ?] [= ?]. f_equal. by eapply str_lt_trans.
Qed.

Lemma vlt_total a b : value_lt a b = Ok false → a ≠ b → vlt b a.
Proof.
  unfold vlt. destruct a as [|x|s], b as [|y|t]; simpl; try done.
  - intros [= ?%Z.ltb_ge] Hne. f_equal. apply Z.ltb_lt.
    assert (x ≠ y) by congruence. lia.
  - intros [= ?] Hne. f_equal. apply str_lt_total; [done|]. congruence.
Qed.

(** [<] succeeds on two values exactly when both are integers or both are
    strings, and its only exception is [TypeError]. *)
Lemma value_lt_Ok a b :
  (∃ r, value_lt a b = Ok r) ↔ homogeneous [a; b].
Proof.
  unfold homogeneous. rewrite !Forall_cons, !Forall_nil.
  destruct a as [|x|s], b as [|y|t]; simpl;
    split; try (intros [? [=]]); try (by eexists);
    try (intros [((? & [=]) & (? & [=]) & _)|((? & [=]) & (? & [=]) & _)]);
    eauto 10.
Qed.

Lemma value_lt_Raise a b e : value_lt a b = Raise e → e = TypeError.
Proof. destruct a, b; simpl; congruence. Qed.

(** ** [sorted] *)

Lemma insort_Raise x l e : insort x l = Raise e → e = TypeError.
Proof.
  induction l as [|y l IH]; simpl; [done|].
  destruct (value_lt x y) as [[]|e'] eqn:Hxy; simpl.
  - done.
  - destruct (insort x l); simpl; [done|]. intros [= <-]. by apply IH.
  - intros [= <-]. by eapply value_lt_Raise.
Qed.

Lemma sorted_Raise l e : sorted l = Raise e → e = TypeError.
Proof.
  revert e. induction l as [|x l IH]; intros e; simpl; [done|].
  destruct (sorted l) as [r|e']; simpl.
  - apply insort_Raise.
  - intros [= <-]. by apply IH.
Qed.

Lemma insort_perm x l r : insort x l = Ok r → r ≡ₚ x :: l.
Proof.
  revert r. induction l as [|y l IH]; intros r; simpl.
  - by intros [= <-].
  - destruct (value_lt x y) as [[]|]; simpl; [by intros [= <-] | | done].
    destruct (insort x l) as [r'|]; simpl; [|done].
    intros [= <-]. rewrite (IH r' eq_refl). apply Permutation_swap.
Qed.

Lemma sorted_perm l r : sorted l = Ok r → r ≡ₚ l.
Proof.
  revert r. induction l as [|x l IH]; intros r; simpl.
  - by intros [= <-].
  - destruct (sorted l) as [r'|]; simpl; [|done].
    intros ->%insort_perm. by rewrite (IH r' eq_refl).
Qed.

Lemma insort_sorted x l r :
  insort x l = Ok r → x ∉ l → StronglySorted vlt l → StronglySorted vlt r.
Proof.
  revert r. induction l as [|y l IH]; intros r; simpl.
  - intros [= <-] _ _. repeat constructor.
  - intros Hr Hx Hl.
    apply not_elem_of_cons in Hx as [Hxy Hx].
    apply StronglySorted_inv in Hl as [Hl Hy].
    destruct (value_lt x y) as [[]|] eqn:Hlt; simpl in Hr; [| |done].
    + injection Hr as <-. constructor; [by constructor|].
      constructor; [done|].
      eapply Forall_impl; [exact Hy|]. intros z. by apply vlt_trans.
    + destruct (insort x l) as [r'|] eqn:Hins; simpl in Hr; [|done].
      injection Hr as <-. constructor; [by apply IH|].
      rewrite (insort_perm _ _ _ Hins). constructor; [|done].
      by apply vlt_total.
Qed.

Lemma sorted_sorted l r :
  sorted l = Ok r → NoDup l → StronglySorted vlt r.
Proof.
  revert r. induction l as [|x l IH]; intros r; simpl.
  - intros [= <-] _. constructor.
  - destruct (sorted l) as [r'|] eqn:Hs; simpl; [|done].
    intros Hins [Hx Hl]%NoDup_cons.
    eapply insort_sorted; [done | | by apply IH].
    by rewrite (sorted_perm _ _ Hs).
Qed.

Lemma homogeneous_cons x l :
  homogeneous (x :: l) ↔ homogeneous [x] ∧ ∀ y, y ∈ l → homogeneous [x; y].
Proof.
  unfold homogeneous. rewrite !Forall_cons, !Forall_nil, !Forall_forall.
  setoid_rewrite Forall_cons. setoid_rewrite Forall_cons.
  setoid_rewrite Forall_nil. split.
  - intros [[Hx Hl]|[Hx Hl]]; (split; [tauto|]); intros y Hy;
      specialize (Hl y Hy); tauto.
  - intros [[[Hx _]|[Hx _]] Hl]; [left | right]; (split; [done|]);
      intros y Hy; destruct (Hl y Hy) as [(Hx' & Hy' & _)|(Hx' & Hy' & _)];
      try done; destruct Hx as [? ->], Hx' as [? [=]].
Qed.

Lemma insort_homogeneous x l :
  (∀ y, y ∈ l → homogeneous [x; y]) → ∃ r, insort x l = Ok r.
Proof.
  induction l as [|y l IH]; intros Hl; simpl; [by eexists|].
  destruct (proj2 (value_lt_Ok x y)) as [b ->]; [apply Hl; left|]; simpl.
  destruct b; [by eexists|].
  destruct IH as [r ->]; [intros z Hz; apply Hl; by right|]. by eexists.
Qed.

Lemma sorted_homogeneous l : homogeneous l → ∃ r, sorted l = Ok r.
Proof.
  induction l as [|x l IH]; intros Hl; simpl; [by eexists|].
  apply homogeneous_cons in Hl as [Hx Hxl].
  destruct IH as [r Hr].
  { destruct l as [|y l]; [left; constructor|].
    pose proof (Hxl y ltac:(left)) as Hxy.
    unfold homogeneous in *. rewrite !Forall_cons, Forall_nil in Hxy.
    rewrite !Forall_forall.
    destruct Hxy as [(Hxi & _ & _)|(Hxs & _ & _)]; [left | right];
      intros z Hz; specialize (Hxl z Hz);
      rewrite !Forall_cons, Forall_nil in Hxl;
      destruct Hxl as [(Hx' & Hz' & _)|(Hx' & Hz' & _)]; try done.
    - destruct Hxi as [? ->], Hx' as [? [=]].
    - destruct Hxs as [? ->], Hx' as [? [=]]. }
  rewrite Hr; simpl. apply insort_homogeneous.
  intros y Hy. apply Hxl. by rewrite <-(sorted_perm _ _ Hr).
Qed.

Lemma sorted_Ok_homogeneous l r :
  sorted l = Ok r → (length l ≤ 1)%nat ∨ homogeneous l.
Proof.
  revert r. induction l as [|x l IH]; intros r; simpl; [left; lia|].
  destruct (sorted l) as [r'|] eqn:Hs; simpl; [|done].
  intros Hins. pose proof (sorted_perm _ _ Hs) as Hperm.
  destruct r' as [|y r'].
  { apply Permutation_nil_l in Hperm as <-. left. simpl. lia. }
  assert (Hxy : homogeneous [x; y]).
  { apply value_lt_Ok. simpl in Hins.
    destruct (value_lt x y); [by eexists | done]. }
  assert (Hy : y ∈ l) by (rewrite <-Hperm; left).
  right. apply homogeneous_cons. split.
  { apply homogeneous_cons in Hxy. tauto. }
  assert (Hl : ∀ z, z ∈ l → homogeneous [y; z]).
  { destruct (IH _ eq_refl) as [Hlen|Hl].
    - destruct l as [|y' [|]]; simpl in Hlen; try lia; [by apply elem_of_nil in Hy|].
      apply list_elem_of_singleton in Hy as ->.
      intros z ->%list_elem_of_singleton.
      unfold homogeneous in *. rewrite !Forall_cons, Forall_nil in *. tauto.
    - intros z Hz. unfold homogeneous in *. rewrite !Forall_forall in Hl.
      rewrite !Forall_cons, Forall_nil.
      destruct Hl as [Hl|Hl]; [left | right]; split_and!; auto. }
  intros z Hz. specialize (Hl z Hz).
  unfold homogeneous in *. rewrite !Forall_cons, Forall_nil in *.
  destruct Hxy as [(Hx1 & Hy1 & _)|(Hx1 & Hy1 & _)];
    destruct Hl as [(Hy2 & Hz2 & _)|(Hy2 & Hz2 & _)];
    first [ by destruct Hy1 as [? ->], Hy2 as [? [=]]
          | left; by split_and!
          | right; by split_and! ].
Qed.





(** ** The genres page *)

Lemma mapM_result_nil {A B} (f : A → result B) : mapM f [] = Ok [].
Proof. reflexivity. Qed.

Lemma mapM_result_cons {A B} (f : A → result B) x l :
  mapM f (x :: l) =
    match f x with
    | Ok y => match mapM f l with Ok k => Ok (y :: k) | Raise e => Raise e end
    | Raise e => Raise e
    end.
Proof. reflexivity. Qed.

Lemma genre_values_Ok films vs :
  mapM (λ film, getitem film "genre") films = Ok vs ↔
  Forall2 (λ d v, d !! "genre" = Some v) films vs.
Proof.
  revert vs. induction films as [|d films IH]; intros vs.
  - rewrite mapM_result_nil.
    split; [intros [= <-]; constructor | by intros ->%Forall2_nil_inv_l].
  - rewrite mapM_result_cons.
    unfold getitem at 1. destruct (d !! "genre") as [v|] eqn:Hd.
    + destruct (mapM _ films) as [vs'|e].
      * split.
        -- intros [= <-]. constructor; [done | by apply IH].
        -- intros (v' & vs'' & Hv & Hvs & ->)%Forall2_cons_inv_l.
           apply IH in Hvs. by simplify_eq.
      * split; [done|].
        intros (v' & vs'' & Hv & Hvs & ->)%Forall2_cons_inv_l.
        by apply IH in Hvs.
    + split; [done|].
      intros (v' & vs'' & Hv & _)%Forall2_cons_inv_l. congruence.
Qed.

Lemma genre_values_Raise films e :
  mapM (λ film, getitem film "genre") films = Raise e ↔
  e = KeyError "genre" ∧ Exists (λ d, d !! "genre" = None) films.
Proof.
  induction films as [|d films IH].
  - rewrite mapM_result_nil. split; [done | by intros [_ ?%Exists_nil]].
  - rewrite Exists_cons, mapM_result_cons.
    unfold getitem at 1. destruct (d !! "genre") as [v|] eqn:Hd.
    + destruct (mapM _ films) as [vs'|e'].
      * split; [done|]. intros [-> [?|?]]; [done|].
        by assert (Ok vs' = Raise (KeyError "genre")) as [=] by by apply IH.
      * split.
        -- intros [= ->]. destruct (proj1 IH eq_refl) as [-> ?]. auto.
        -- intros [-> [?|?]]; [done|]. f_equal. symmetry.
           assert (Raise e' = Raise (KeyError "genre")) as [=] by by apply IH.
           done.
    + split; [intros [= <-]; auto | by intros [-> _]].
Qed.

Lemma genre_values_film_dict (C : list Film) :
  mapM (λ film, getitem film "genre") (film_dict <$> C) =
    Ok ((λ f, VStr (genre f)) <$> C).
Proof.
  apply genre_values_Ok. apply Forall2_fmap, Forall_Forall2_diag.
  apply Forall_forall. intros f _.
  pose proof (getitem_genre f) as Hg. unfold getitem in Hg.
  by destruct (film_dict f !! "genre"); simplify_eq.
Qed.

#[local] Instance VStr_inj : Inj (=) (=) VStr.
Proof. by intros s t [= ->]. Qed.

Lemma all_str_fmap (l : list value) :
  Forall (λ v, ∃ s, v = VStr s) l → ∃ gs, l = VStr <$> gs.
Proof.
  induction 1 as [|v l [s ->] _ [gs ->]]; [by exists []|].
  by exists (s :: gs).
Qed.

Lemma StronglySorted_VStr gs :
  StronglySorted vlt (VStr <$> gs) →
  StronglySorted (λ s t, str_lt s t = true) gs.
Proof.
  induction gs as [|g gs IH]; [constructor|].
  rewrite fmap_cons. intros [Hs Hg]%StronglySorted_inv.
  constructor; [by apply IH|].
  rewrite Forall_fmap in Hg. eapply Forall_impl; [exact Hg|].
  intros t Ht. unfold vlt in Ht. simpl in Ht. by injection Ht.
Qed.

Lemma genres_film_dict (C : list Film) :
  ∃ gs,
    genres (film_dict <$> C) =
      Ok ("genres.html"%string,
          {| gctx_title := py "Genres"; gctx_genres := VStr <$> gs |}) ∧
    StronglySorted (λ s t, str_lt s t = true) gs ∧
    NoDup gs ∧
    (∀ g, g ∈ gs ↔ ∃ f, f ∈ C ∧ genre f = g).
Proof.
  unfold genres, genre_set. rewrite genre_values_film_dict.
  cbn [mbind result_bind].
  set (vs := (λ f, VStr (genre f)) <$> C).
  assert (Hstr : Forall (λ v, ∃ s, v = VStr s) (remove_dups vs)).
  { apply Forall_forall. intros v Hv. rewrite elem_of_remove_dups in Hv.
    apply list_elem_of_fmap in Hv as (f & -> & _). by eexists. }
  destruct (sorted_homogeneous (remove_dups vs)) as [r Hr]; [by right|].
  pose proof (sorted_perm _ _ Hr) as Hperm.
  destruct (all_str_fmap r) as [gs ->]; [by rewrite Hperm|].
  exists gs. rewrite Hr. cbn [mbind result_bind]. split_and!.
  - done.
  - apply StronglySorted_VStr. eapply sorted_sorted; [done|].
    apply NoDup_remove_dups.
  - apply (NoDup_fmap_1 VStr). rewrite Hperm. apply NoDup_remove_dups.
  - intros g. rewrite <-(list_elem_of_fmap_inj VStr), Hperm.
    rewrite elem_of_remove_dups. unfold vs. rewrite list_elem_of_fmap.
    split.
    + intros (f & [= ->] & Hf). by exists f.
    + intros (f & Hf & <-). by exists f.
Qed.

(** X14: on a catalog of typed films the genres page lists the genres of
    the catalog: each genre that some film has, once, in ascending order of
    code points. *)
Theorem genres_spec (C : list Film) :
  ∃ gs,
    genres (film_dict <$> C) =
      Ok ("genres.html"%string,
          {| gctx_title := py "Genres"; gctx_genres := VStr <$> gs |}) ∧
    StronglySorted (λ s t, str_lt s t = true) gs ∧
    NoDup gs ∧
    (∀ g, g ∈ gs ↔ ∃ f, f ∈ C ∧ genre f = g).
Proof. apply genres_film_dict. Qed.

Lemma genres_Raise_cases films :
  (∀ e, genres films = Raise e → e = KeyError "genre" ∨ e = TypeError) ∧
  (genres films = Raise (KeyError "genre") ↔
     Exists (λ d, d !! "genre" = None) films).
Proof.
  unfold genres, genre_set.
  destruct (mapM _ films) as [vs|e'] eqn:Hvs; cbn [mbind result_bind].
  - assert (Hno : ¬ Exists (λ d, d !! "genre" = None) films).
    { intros Hex.
      assert (Ok vs = Raise (KeyError "genre")) as [=].
      rewrite <-Hvs. by apply genre_values_Raise. }
    destruct (sorted (remove_dups vs)) as [r|e''] eqn:Hs;
      cbn [mbind result_bind].
    + split; [done | by split].
    + apply sorted_Raise in Hs as ->. split; [by right; congruence|].
      by split.
  - apply genre_values_Raise in Hvs as [-> Hex]. split; [by left; congruence|].
    by split.
Qed.


Section GenresAndBrowse.

(** The genre filter makes no use of the case mapping; the Latin-1 table
    stands in where [filter_films] asks for one. *)
#[local] Existing Instance latin1_case.

(** X16: a catalog that the browse pages accept can break the genres page.
    When every film has a ["genre"], one of them a string and another one
    not (a [null], a number), browsing any genre succeeds in both variants
    while the genres page raises [TypeError]. *)
Theorem genres_stricter_than_browse films d1 d2 v s g n
    (stM : Main.state) (stA : App.state) :
  Forall (λ d, is_Some (d !! "genre")) films →
  d1 ∈ films → d1 !! "genre" = Some v → (∀ t, v ≠ VStr t) →
  d2 ∈ films → d2 !! "genre" = Some (VStr s) →
  genres films = Raise TypeError ∧
  (∃ out, Main.films_by_genre films g n stM = Ok out) ∧
  (∃ out, App.films_by_genre films g n stA = Ok out).
Proof.
  intros Hall Hd1 Hv Hnstr Hd2 Hs.
  assert (Hbrowse : ∃ kept, comprehension (genre_cond g) films = Ok kept).
  { apply comprehension_Ok_iff. eapply Forall_impl; [exact Hall|].
    intros d [w Hw]. eexists. apply genre_cond_Ok. by exists w. }
  destruct Hbrowse as [kept Hkept].
  split_and!.
  - destruct (genres films) as [out|e] eqn:Hg.
    + exfalso. unfold genres, genre_set in Hg.
      destruct (mapM _ films) as [vs|] eqn:Hvs; [|done].
      cbn [mbind result_bind] in Hg.
      destruct (sorted (remove_dups vs)) as [r|] eqn:Hr; [|done].
      apply genre_values_Ok in Hvs.
      assert (Hin : ∀ d w, d ∈ films → d !! "genre" = Some w →
                           w ∈ remove_dups vs).
      { intros d w Hd Hw. rewrite elem_of_remove_dups.
        apply list_elem_of_lookup in Hd as [i Hi].
        destruct (Forall2_lookup_l _ _ _ _ _ Hvs Hi) as (w' & Hw' & Hdw).
        apply list_elem_of_lookup. exists i. congruence. }
      pose proof (Hin _ _ Hd1 Hv) as Hv'.
      pose proof (Hin _ _ Hd2 Hs) as Hs'.
      destruct (sorted_Ok_homogeneous _ _ Hr) as [Hlen|[Hint|Hstr]].
      * destruct (remove_dups vs) as [|a [|b l]]; simpl in Hlen; [| |lia].
        -- by apply elem_of_nil in Hv'.
        -- apply list_elem_of_singleton in Hv' as ->.
           apply list_elem_of_singleton in Hs' as <-. by destruct (Hnstr s).
      * rewrite Forall_forall in Hint. by destruct (Hint _ Hs') as [? [=]].
      * rewrite Forall_forall in Hstr. destruct (Hstr _ Hv') as [t ->].
        by destruct (Hnstr t).
    + destruct (proj1 (genres_Raise_cases films) e Hg) as [-> | ->]; [|done].
      apply genres_Raise_cases in Hg. apply Exists_exists in Hg as (d & Hd & Hnone).
      rewrite Forall_forall in Hall. destruct (Hall d Hd) as [w Hw]. congruence.
  - unfold Main.films_by_genre. rewrite Hkept. by eexists.
  - unfold App.films_by_genre. rewrite Hkept. by eexists.
Qed.

Lemma filter_genre_nil (C : list Film) g :
  filter_films C (Genre g) = [] ↔ ¬ ∃ f, f ∈ C ∧ genre f = g.
Proof.
  split.
  - intros Hnil (f & Hf & Hg).
    assert (f ∈ filter_films C (Genre g)) as Hin.
    { apply elem_of_list_filter_bool. split; [done|].
      by apply bool_decide_eq_true. }
    rewrite Hnil in Hin. by apply elem_of_nil in Hin.
  - intros Hno. apply elem_of_nil_inv.
    intros f [Hf Hg%bool_decide_eq_true]%elem_of_list_filter_bool.
    apply Hno. by exists f.
Qed.

(** X17: the genres page and the browse page agree.  On a catalog of typed
    films, the first page of a genre has films exactly when the genres page
    lists that genre, and every film on it has that genre. *)
Theorem listed_genres_are_browsable (C : list Film) page g
    (stA : App.state) :
  genres (film_dict <$> C) = Ok ("genres.html"%string, page) →
  ∃ pc,
    App.films_by_genre (film_dict <$> C) g 1 stA =
      Ok (TemplateResponse "keyword.html" (Paginated pc), stA) ∧
    (ctx_items pc ≠ [] ↔ VStr g ∈ gctx_genres page) ∧
    Forall (λ d, d !! "genre" = Some (VStr g)) (ctx_items pc).
Proof.
  destruct (genres_film_dict C) as (gs & -> & _ & _ & Hgs).
  intros [= <-]. cbn [gctx_genres].
  unfold App.films_by_genre. rewrite comprehension_genre.
  cbn [mbind result_bind]. unfold table_context. eexists.
  split; [done|]. cbn [ctx_items]. split.
  - rewrite (list_elem_of_fmap_inj VStr), Hgs.
    rewrite paginate_items_nil by (unfold PER_PAGE; lia).
    rewrite length_fmap. split.
    + intros Hlen.
      destruct (filter_films C (Genre g)) as [|f l] eqn:Hf;
        [simpl in Hlen; unfold PER_PAGE in Hlen; lia|].
      assert (Hin : f ∈ filter_films C (Genre g)) by (rewrite Hf; left).
      apply elem_of_list_filter_bool in Hin as [Hin Hg%bool_decide_eq_true].
      by exists f.
    + intros Hex Hlen.
      assert (filter_films C (Genre g) = []) as Hnil
        by (apply length_zero_iff_nil; lia).
      by apply filter_genre_nil in Hnil.
  - destruct (slice_run (film_dict <$> filter_films C (Genre g))
                ((1 - 1) * PER_PAGE) ((1 - 1) * PER_PAGE + PER_PAGE))
      as (pre & post & Hrun).
    assert (Hall : Forall (λ d, d !! "genre" = Some (VStr g))
                     (film_dict <$> filter_films C (Genre g))).
    { apply Forall_fmap, Forall_forall.
      intros f [_ Hg%bool_decide_eq_true]%elem_of_list_filter_bool.
      simpl. pose proof (getitem_genre f) as Hf. unfold getitem in Hf.
      destruct (film_dict f !! "genre"); by simplify_eq. }
    rewrite Hrun in Hall.
    by apply Forall_app in Hall as [_ [? _]%Forall_app].
Qed.

Lemma concat_filter_genres (C : list Film) (gs : list pystr) :
  NoDup gs →
  (∀ f, f ∈ C → genre f ∈ gs) →
  concat ((λ g, filter_films C (Genre g)) <$> gs) ≡ₚ C.
Proof.
  intros Hnd. induction C as [|f C IH]; intros Hin.
  - clear. induction gs as [|g gs IH]; [done|]. by rewrite fmap_cons.
  - destruct (list_elem_of_split gs (genre f)) as (gs1 & gs2 & Hgs);
      [apply Hin; left|].
    specialize (IH (λ f' Hf', Hin f' ltac:(by right))).
    rewrite Hgs in Hnd, IH |- *.
    apply NoDup_app in Hnd as (_ & Hgs1 & [Hgs2 _]%NoDup_cons).
    assert (Hskip : ∀ l : list pystr, genre f ∉ l →
              (λ g, filter_films (f :: C) (Genre g)) <$> l =
              (λ g, filter_films C (Genre g)) <$> l).
    { intros l Hl. apply Forall_fmap_ext, Forall_forall. intros g Hg.
      unfold filter_films; simpl.
      rewrite bool_decide_eq_false_2; [done|]. by intros <-. }
    rewrite !fmap_app, !fmap_cons, !concat_app, !concat_cons in IH |- *.
    rewrite !Hskip.
    + unfold filter_films at 2; simpl. rewrite bool_decide_eq_true_2 by done.
      fold (filter_films C (Genre (genre f))).
      rewrite <-app_comm_cons, <-Permutation_middle. by constructor.
    + done.
    + intros Hf. by apply (Hgs1 (genre f)); [|left].
Qed.

(** X18: the genres page divides the catalog.  On a catalog of typed films
    the films found by browsing the listed genres one after the other are
    the films of the catalog, each of them once. *)
Theorem genres_partition_catalog (C : list Film) page :
  genres (film_dict <$> C) = Ok ("genres.html"%string, page) →
  ∃ pages,
    Forall2 (λ v kept,
               ∃ g, v = VStr g ∧
                    comprehension (genre_cond g) (film_dict <$> C) = Ok kept)
            (gctx_genres page) pages ∧
    concat pages ≡ₚ film_dict <$> C.
Proof.
  destruct (genres_film_dict C) as (gs & -> & _ & Hnd & Hgs).
  intros [= <-]. cbn [gctx_genres].
  exists ((λ g, film_dict <$> filter_films C (Genre g)) <$> gs). split.
  - apply Forall2_fmap, Forall_Forall2_diag, Forall_forall.
    intros g _. exists g. split; [done | apply comprehension_genre].
  - trans (film_dict <$> concat ((λ g, filter_films C (Genre g)) <$> gs)).
    + clear. induction gs as [|g gs IH]; [done|].
      by rewrite !fmap_cons, !concat_cons, fmap_app, IH.
    + apply fmap_Permutation, concat_filter_genres; [done|].
      intros f Hf. apply Hgs. by exists f.
Qed.

End GenresAndBrowse.

(** ** How searches relate *)

(** A condition that holds wherever another one holds keeps at least the
    same films. *)
Lemma comprehension_mono cond1 cond2 films kept2 :
  (∀ d b, cond2 d = Ok b → ∃ b', cond1 d = Ok b' ∧ (b = true → b' = true)) →
  comprehension cond2 films = Ok kept2 →
  ∃ kept1, comprehension cond1 films = Ok kept1 ∧ sublist kept2 kept1.
Proof.
  intros Hcond. revert kept2.
  induction films as [|d films IH]; intros kept2; simpl.
  - intros [= <-]. by exists [].
  - destruct (cond2 d) as [b|] eqn:Hd; simpl; [|done].
    destruct (comprehension cond2 films) as [kept2'|]; simpl; [|done].
    intros [= <-].
    destruct (Hcond d b Hd) as (b' & -> & Hb).
    destruct (IH kept2' eq_refl) as (kept1' & -> & Hsub). simpl.
    eexists. split; [done|].
    destruct b; [rewrite Hb by done; by constructor|].
    destruct b'; [by constructor | done].
Qed.

Lemma str_contains_trans t k2 k1 :
  str_contains t k2 = true → str_contains k2 k1 = true →
  str_contains t k1 = true.
Proof.
  rewrite !str_contains_spec.
  intros (p & q & ->) (p' & q' & ->).
  exists (p ++ p'), (q' ++ q). by rewrite <-!app_assoc.
Qed.

Section Searches.
Context `{CaseMapping}.

(** X19: a longer keyword narrows the search.  When the lowercased [k1]
    occurs in the lowercased [k2], every film that [main.py] stores for
    [k2] it also stores for [k1], in the same order; a search for [k2] that
    does not raise means that the search for [k1] does not raise
    either. *)
Theorem keyword_search_narrows films k1 k2 (st st2 : Main.state) resp :
  str_contains (str_lower k2) (str_lower k1) = true →
  Main.keyword_search films k2 st = Ok (resp, st2) →
  ∃ st1,
    Main.keyword_search films k1 st = Ok (resp, st1) ∧
    sublist (Main.filtered_films st2) (Main.filtered_films st1).
Proof.
  intros Hk. unfold Main.keyword_search.
  destruct (comprehension (keyword_cond (str_lower k2)) films)
    as [kept2|] eqn:H2; [|done].
  cbn [mbind result_bind]. intros [= <- <-].
  destruct (comprehension_mono (keyword_cond (str_lower k1))
              (keyword_cond (str_lower k2)) films kept2) as (kept1 & -> & Hsub);
    [|done|].
  - intros d b (t & Ht & ->)%keyword_cond_Ok. eexists. split.
    + apply keyword_cond_Ok. by exists t.
    + intros Hc. by eapply str_contains_trans.
  - cbn [mbind result_bind]. by eexists.
Qed.

End Searches.


Lemma str_contains_empty t : str_contains t [] = true.
Proof. by destruct t. Qed.

Section EmptyKeyword.
Context `{CaseMapping}.

(** X21: the empty string occurs in every string.  Called with a keyword
    whose lowercase is empty, the keyword search keeps every film of a
    catalog whose titles are strings: [main.py] stores the whole catalog,
    [app.py] pages it. *)
Theorem empty_keyword_keeps_all films k n (stM : Main.state)
    (stA : App.state) :
  str_lower k = [] →
  Forall (λ d, ∃ t, d !! "title" = Some (VStr t)) films →
  Main.keyword_search films k stM =
    Ok (RedirectResponse "/search/keyword" 303,
        {| Main.filtered_films := films |}) ∧
  App.keyword_search films k n stA =
    Ok (TemplateResponse "keyword.html"
          (table_context (Some (py "Search by keyword"))
             (paginate films n PER_PAGE)),
        stA).
Proof.
  intros Hk Htitles.
  assert (Hall : comprehension (keyword_cond []) films = Ok films).
  { induction Htitles as [|d films [t Ht] _ IH]; [done|].
    cbn [comprehension].
    assert (keyword_cond [] d = Ok true) as ->.
    { apply keyword_cond_Ok. exists t. by rewrite str_contains_empty. }
    by rewrite IH. }
  unfold Main.keyword_search, App.keyword_search. by rewrite Hk, Hall.
Qed.

End EmptyKeyword.

(** ** Concrete runs

    From here on [str.lower] and [str.upper] are the Latin-1 table. *)

#[local] Existing Instance latin1_case.

(** C5 as stated fails: the film titled "Straße" is found with the keyword
    "ß" and not with its [upper], "SS". *)
Lemma keyword_filter_upper_counterexample :
  str_upper sharp_s = py "SS" ∧
  filter_films [strasse] (KeywordInTitle sharp_s) = [strasse] ∧
  filter_films [strasse] (KeywordInTitle (str_upper sharp_s)) = [] ∧
  filter_films [strasse] (KeywordInTitle sharp_s) ≠
    filter_films [strasse] (KeywordInTitle (str_upper sharp_s)) ∧
  Main.keyword_search [film_dict strasse] sharp_s Main.init ≠
    Main.keyword_search [film_dict strasse] (str_upper sharp_s) Main.init ∧
  App.keyword_search [film_dict strasse] sharp_s 1 App.init ≠
    App.keyword_search [film_dict strasse] (str_upper sharp_s) 1 App.init.
Proof.
  split_and!; try reflexivity.
  - vm_compute. intros [=].
  - vm_compute. intros [=].
  - vm_compute. intros [=].
Qed.

Lemma keyword_filter_upper_witness :
  let C := [film_of "Alien" "Horror" 1979; film_of "Brazil" "Comedy" 1985] in
  str_lower (str_upper (py "ALi")) = str_lower (py "ALi") ∧
  filter_films C (KeywordInTitle (str_upper (py "ALi"))) =
    [film_of "Alien" "Horror" 1979] ∧
  Main.keyword_search (film_dict <$> C) (str_upper (py "ALi")) Main.init =
    Main.keyword_search (film_dict <$> C) (py "ALi") Main.init.
Proof.
  intros C.
  destruct (@keyword_filter_upper latin1_case C (film_dict <$> C) (py "ALi") 1
              Main.init App.init eq_refl) as (Hsame & _ & _ & Hmain & _).
  split_and!; [reflexivity | exact Hsame | exact Hmain].
Defined.

Lemma year_filter_spec_witness :
  let C := [film_of "Alien" "Horror" 1979; film_of "Brazil" "Comedy" 1985] in
  1990 > 1980 ∧
  filter_films C (YearRange 1990 1980) = [] ∧
  Main.year_form_submit (film_dict <$> C) 1990 1980 Main.init =
    Ok (RedirectResponse "/search/year" 303, {| Main.filtered_films := [] |}).
Proof.
  intros C.
  destruct (year_filter_spec C 1990 1980 Main.init App.init)
    as (_ & _ & _ & Hempty).
  destruct (Hempty ltac:(lia)) as (Hnil & Hmain & _).
  split_and!; [lia | exact Hnil | exact Hmain].
Defined.

Lemma engine_no_error_witness :
  let C := [film_of "Alien" "Horror" 1979; film_of "Brazil" "Comedy" 1985] in
  (∀ f, f ∈ C → matches (Genre (py "Western")) f = false) ∧
  comprehension (genre_cond (py "Western")) (film_dict <$> C) = Ok [] ∧
  (1 ≤ 7 ∧ 1 ≤ 10 ∧ Z.of_nat (length C) ≤ (7 - 1) * 10) ∧
  valid_page_result 10 (paginate C 7 10) ∧
  items (paginate C 7 10) = [] ∧
  has_next (paginate C 7 10) = false.
Proof.
  intros C.
  assert (Hnone : ∀ f, f ∈ C → matches (Genre (py "Western")) f = false).
  { intros f Hf. repeat apply elem_of_cons in Hf as [->|Hf]; try reflexivity.
    by apply elem_of_nil in Hf. }
  destruct engine_no_error as (_ & _ & Hmiss & _ & _ & Hpage & _).
  destruct (Hpage C 7 10 ltac:(lia) ltac:(lia)) as (Hvalid & Hpast).
  destruct (Hpast ltac:(simpl; lia)) as (Hitems & Hnext).
  split_and!;
    [exact Hnone | exact (Hmiss C (Genre (py "Western")) Hnone)
    | lia | lia | simpl; lia | exact Hvalid | exact Hitems | exact Hnext].
Defined.

(** The examples of the specification, run through the handlers. *)

(** Twelve films of the years 1990 to 2001, range 1995 to 1998: four films,
    all on page 1, which has neither a previous nor a next page. *)
Example year_range_example :
  serve (Main.handle (film_dict <$> films_of_years "Drama" 1990 12))
        [POST_search_year 1995 1998; GET_search_year 1] Main.init =
    ([Ok (RedirectResponse "/search/year" 303);
      Ok (TemplateResponse "year.html"
            (Paginated
               {| ctx_title := None;
                  ctx_items := film_dict <$> films_of_years "Drama" 1995 4;
                  ctx_columns := columns;
                  ctx_page := 1;
                  ctx_has_prev := false;
                  ctx_has_next := false;
                  ctx_offset := 0 |}))],
     {| Main.filtered_films := film_dict <$> films_of_years "Drama" 1995 4 |}).
Proof. vm_compute. reflexivity. Qed.

(** Twenty-five dramas, page 3: films 21 to 25, a previous page, no next
    page, offset 20. *)
Example genre_page_example :
  App.films_by_genre (film_dict <$> films_of_years "Drama" 1 25)
    (py "Drama") 3 App.init =
    Ok (TemplateResponse "keyword.html"
          (Paginated
             {| ctx_title := Some (py "Genre: Drama");
                ctx_items := film_dict <$> films_of_years "Drama" 21 5;
                ctx_columns := columns;
                ctx_page := 3;
                ctx_has_prev := true;
                ctx_has_next := false;
                ctx_offset := 20 |}),
        App.init).
Proof. vm_compute. reflexivity. Qed.

(** The genre is compared as it is written. *)
Example genre_case_example :
  filter_films [film_of "Alien" "Horror" 1979] (Genre (py "horror")) = [] ∧
  filter_films [film_of "Alien" "Horror" 1979] (Genre (py "Horror")) =
    [film_of "Alien" "Horror" 1979].
Proof. split; reflexivity. Qed.

(** A page below 1 at the interface: with 25 dramas, [?page=-1] shows the
    films at positions 5 to 14. *)
Example negative_page_example :
  ∃ resp,
    App.films_by_genre (film_dict <$> films_of_years "Drama" 0 25)
      (py "Drama") (-1) App.init =
      Ok (TemplateResponse "keyword.html" (Paginated resp), App.init) ∧
    ctx_items resp = film_dict <$> films_of_years "Drama" 5 10 ∧
    ctx_offset resp = -20 ∧
    ctx_has_prev resp = false ∧
    ctx_has_next resp = true.
Proof. eexists. split_and!; vm_compute; reflexivity. Qed.

(** Films that are not of the expected shape make the handlers raise, and a
    request that raises leaves the slot as it was. *)
Example missing_key_example :
  comprehension (genre_cond (py "Drama"))
    [film_dict strasse; {[ "title"%string := VStr (py "Untitled") ]}] =
    Raise (KeyError "genre").
Proof. vm_compute. reflexivity. Qed.

Example year_not_int_example :
  year_cond 1990 2000 {[ "year"%string := VStr (py "1995") ]} = Raise TypeError.
Proof. vm_compute. reflexivity. Qed.

Example title_null_example :
  keyword_cond (py "a") {[ "title"%string := VNone ]} = Raise AttributeError.
Proof. vm_compute. reflexivity. Qed.

Example raise_keeps_slot_example :
  serve (Main.handle [{[ "year"%string := VNone ]}])
        [POST_search_year 1990 2000] {| Main.filtered_films := [film_dict strasse] |} =
    ([Raise TypeError], {| Main.filtered_films := [film_dict strasse] |}).
Proof. vm_compute. reflexivity. Qed.

(** ** Instances of the further properties *)

Lemma paginate_items_run_witness :
  0 ≤ 2 ∧
  (∃ pre post,
     [1; 2; 3; 4; 5]%nat =
       pre ++ items (paginate [1; 2; 3; 4; 5]%nat (-1) 2) ++ post) ∧
  Z.of_nat (length (items (paginate [1; 2; 3; 4; 5]%nat (-1) 2))) ≤ 2.
Proof.
  split; [lia|]. apply (paginate_items_run [1; 2; 3; 4; 5]%nat (-1) 2). lia.
Defined.

Lemma paginate_items_count_witness :
  (1 ≤ 3 ∧ 0 < 2) ∧
  Z.of_nat (length (items (paginate [1; 2; 3; 4; 5]%nat 3 2))) =
    Z.min 2 (Z.max 0 (Z.of_nat (length [1; 2; 3; 4; 5]%nat) - (3 - 1) * 2)) ∧
  (has_next (paginate [1; 2; 3; 4; 5]%nat 3 2) = true →
     Z.of_nat (length (items (paginate [1; 2; 3; 4; 5]%nat 3 2))) = 2).
Proof.
  split; [lia|]. apply (paginate_items_count [1; 2; 3; 4; 5]%nat 3 2); lia.
Defined.

Lemma paginate_nonempty_iff_witness :
  0 < 2 ∧
  (items (paginate [1; 2; 3; 4; 5]%nat (-2) 2) ≠ [] ↔
     (1 ≤ -2 ∧ (-2 - 1) * 2 < Z.of_nat (length [1; 2; 3; 4; 5]%nat)) ∨
     (-2 ≤ -1 ∧ - -2 * 2 < Z.of_nat (length [1; 2; 3; 4; 5]%nat))).
Proof.
  split; [lia|]. apply (paginate_nonempty_iff [1; 2; 3; 4; 5]%nat (-2) 2). lia.
Defined.

Lemma paginate_flags_below_first_page_witness :
  (0 < 10 ∧ -1 ≤ 0) ∧
  has_prev (paginate (@nil nat) (-1) 10) = false ∧
  has_next (paginate (@nil nat) (-1) 10) = true.
Proof.
  split; [lia|].
  destruct (paginate_flags_below_first_page (@nil nat) (-1) 10
              ltac:(lia) ltac:(lia)) as (Hprev & Hnext & _).
  split; [exact Hprev | apply Hnext; lia].
Defined.

Lemma follow_next_all_witness :
  (0 < 2 ∧ (length [1; 2; 3; 4; 5]%nat < 6)%nat) ∧
  follow_next 6 [1; 2; 3; 4; 5]%nat 1 2 = Some [1; 2; 3; 4; 5]%nat.
Proof.
  split; [simpl; lia|].
  apply (follow_next_all [1; 2; 3; 4; 5]%nat 2 6); simpl; lia.
Defined.

(** A catalog with a film whose genre is [null]. *)
Lemma films_by_genre_any_catalog_witness :
  let untyped : dict := {[ "genre"%string := VNone ]} in
  let films := [film_dict strasse; untyped] in
  let kept := [film_dict strasse] in
  let resp :=
    TemplateResponse "keyword.html"
      (table_context (Some (py "Genre: " ++ py "Drama"))
         (paginate kept 1 PER_PAGE)) in
  Main.films_by_genre films (py "Drama") 1 Main.init =
    Ok (resp, {| Main.filtered_films := kept |}) ∧
  sublist kept films ∧
  App.films_by_genre films (py "Drama") 1 App.init = Ok (resp, App.init).
Proof.
  intros untyped films kept resp.
  assert (Hrun : Main.films_by_genre films (py "Drama") 1 Main.init =
                 Ok (resp, {| Main.filtered_films := kept |}))
    by (vm_compute; reflexivity).
  destruct (films_by_genre_any_catalog films (py "Drama") 1
              Main.init {| Main.filtered_films := kept |} App.init resp Hrun)
    as (Hsub & _ & _ & Happ).
  split_and!; [exact Hrun | exact Hsub | exact Happ].
Defined.


Lemma genres_stricter_than_browse_witness :
  let untyped : dict := {[ "genre"%string := VNone ]} in
  let films := [film_dict strasse; untyped] in
  Forall (λ d : dict, is_Some (d !! "genre")) films ∧
  genres films = Raise TypeError ∧
  (∃ out, Main.films_by_genre films (py "Drama") 1 Main.init = Ok out).
Proof.
  intros untyped films.
  assert (Hall : Forall (λ d : dict, is_Some (d !! "genre")) films).
  { repeat constructor; by eexists. }
  destruct (genres_stricter_than_browse films untyped
              (film_dict strasse) VNone (py "Drama") (py "Drama") 1
              Main.init App.init Hall)
    as (Hgenres & Hmain & _).
  - right. left.
  - reflexivity.
  - intros t. discriminate.
  - left.
  - reflexivity.
  - split_and!; [exact Hall | exact Hgenres | exact Hmain].
Defined.

Lemma listed_genres_are_browsable_witness :
  let C := [film_of "Alien" "Horror" 1979; film_of "Brazil" "Comedy" 1985] in
  let page :=
    {| gctx_title := py "Genres";
       gctx_genres := [VStr (py "Comedy"); VStr (py "Horror")] |} in
  genres (film_dict <$> C) = Ok ("genres.html"%string, page) ∧
  ∃ pc,
    App.films_by_genre (film_dict <$> C) (py "Horror") 1 App.init =
      Ok (TemplateResponse "keyword.html" (Paginated pc), App.init) ∧
    (ctx_items pc ≠ [] ↔ VStr (py "Horror") ∈ gctx_genres page).
Proof.
  intros C page.
  assert (Hg : genres (film_dict <$> C) = Ok ("genres.html"%string, page))
    by (vm_compute; reflexivity).
  split; [exact Hg|].
  destruct (listed_genres_are_browsable C page (py "Horror")
              App.init Hg) as (pc & Hresp & Hiff & _).
  exists pc. split; [exact Hresp | exact Hiff].
Defined.

Lemma genres_partition_catalog_witness :
  let C := [film_of "Alien" "Horror" 1979; film_of "Brazil" "Comedy" 1985] in
  let page :=
    {| gctx_title := py "Genres";
       gctx_genres := [VStr (py "Comedy"); VStr (py "Horror")] |} in
  genres (film_dict <$> C) = Ok ("genres.html"%string, page) ∧
  ∃ pages, length pages = 2%nat ∧ concat pages ≡ₚ film_dict <$> C.
Proof.
  intros C page.
  assert (Hg : genres (film_dict <$> C) = Ok ("genres.html"%string, page))
    by (vm_compute; reflexivity).
  split; [exact Hg|].
  destruct (genres_partition_catalog C page Hg)
    as (pages & Hpages & Hperm).
  exists pages. split; [|exact Hperm].
  symmetry. exact (Forall2_length _ _ _ Hpages).
Defined.

Lemma keyword_search_narrows_witness :
  let C := [film_of "Alien" "Horror" 1979; film_of "Aliens" "Horror" 1986;
            film_of "Brazil" "Comedy" 1985] in
  let found := film_dict <$> [film_of "Aliens" "Horror" 1986] in
  str_contains (str_lower (py "Aliens")) (str_lower (py "LI")) = true ∧
  Main.keyword_search (film_dict <$> C) (py "Aliens") Main.init =
    Ok (RedirectResponse "/search/keyword" 303,
        {| Main.filtered_films := found |}) ∧
  ∃ st1,
    Main.keyword_search (film_dict <$> C) (py "LI") Main.init =
      Ok (RedirectResponse "/search/keyword" 303, st1) ∧
    sublist found (Main.filtered_films st1).
Proof.
  intros C found.
  assert (Hk : str_contains (str_lower (py "Aliens")) (str_lower (py "LI"))
               = true) by (vm_compute; reflexivity).
  assert (Hrun : Main.keyword_search (film_dict <$> C) (py "Aliens") Main.init =
                 Ok (RedirectResponse "/search/keyword" 303,
                     {| Main.filtered_films := found |}))
    by (vm_compute; reflexivity).
  split_and!; [exact Hk | exact Hrun |].
  exact (@keyword_search_narrows latin1_case (film_dict <$> C) (py "LI")
           (py "Aliens") Main.init {| Main.filtered_films := found |}
           (RedirectResponse "/search/keyword" 303) Hk Hrun).
Defined.


Lemma empty_keyword_keeps_all_witness :
  let films :=
    film_dict <$>
      [film_of "Alien" "Horror" 1979; film_of "Brazil" "Comedy" 1985] in
  str_lower [] = [] ∧
  Forall (λ d : dict, ∃ t, d !! "title" = Some (VStr t)) films ∧
  Main.keyword_search films [] Main.init =
    Ok (RedirectResponse "/search/keyword" 303,
        {| Main.filtered_films := films |}).
Proof.
  intros films.
  assert (Htitles : Forall (λ d : dict, ∃ t, d !! "title" = Some (VStr t))
                      films).
  { repeat constructor; by eexists. }
  destruct (@empty_keyword_keeps_all latin1_case films [] 1 Main.init App.init
              eq_refl Htitles) as (Hmain & _).
  split_and!; [reflexivity | exact Htitles | exact Hmain].
Defined.
